(** * pan2players: the channel isolation filter and the panning controller

    A shallow embedding of [pan2players/main.go]:
    - [SingleChannelStream.Read], the filter that silences one channel of
      an interleaved stereo float32 stream, frame by frame;
    - [Game.Update], [lerp] and [Game.initAudioIfNeeded], the controller
      that moves the pan position and sets the two players' volumes.

    Go's [int] is modelled by [Z], [[]byte] by [list Byte.byte] with the
    bounds check of every indexed store written out, [float64] by real
    numbers under an abstract rounding operator (class [Float64]). *)

From Stdlib Require Import ZArith Reals Lra Lia List String.
From stdpp Require Import base tactics option list.
From Equations Require Import Equations.

Local Open Scope Z_scope.

(** ** Outcomes of a call *)

(** A Go call either returns, panics at run time (index out of range, nil
    dereference) or ends the process through [log.Fatal]. *)
Inductive outcome (A : Type) : Type :=
| Returned (a : A)
| Panicked
| Fatal.
Arguments Returned {A} a.
Arguments Panicked {A}.
Arguments Fatal {A}.

#[export] Instance outcome_ret : MRet outcome := fun A a => Returned a.
#[export] Instance outcome_bind : MBind outcome := fun A B f m =>
  match m with
  | Returned a => f a
  | Panicked => Panicked
  | Fatal => Fatal
  end.

(** ** The channel isolation filter *)

Abbreviation byte := Byte.byte.

(** Go's [error]: [None] is [nil]. *)
Definition error := option string.

(** The caller's slice [p].  [stores] is ghost state: the indices the
    filter has assigned to, most recent first. *)
Record buf := Buf { data : list byte; stores : list Z }.

(** [p[i] = v], with Go's bounds check. *)
Definition store (p : buf) (i : Z) (v : byte) : outcome buf :=
  if decide (0 <= i < Z.of_nat (length (data p)))
  then Returned (Buf (<[Z.to_nat i := v]> (data p)) (i :: stores p))
  else Panicked.

(** The body of the loop of [Read]. *)
Definition silence (isLeft : bool) (i : Z) (p : buf) : outcome buf :=
  if isLeft then
    p ← store p (i + 4) Byte.x00;
    p ← store p (i + 5) Byte.x00;
    p ← store p (i + 6) Byte.x00;
    store p (i + 7) Byte.x00
  else
    p ← store p i Byte.x00;
    p ← store p (i + 1) Byte.x00;
    p ← store p (i + 2) Byte.x00;
    store p (i + 3) Byte.x00.

(** [for i := 0; i+8 <= n; i += 8 { ... }], entered at index [i].  The
    index is not wrapped to 64 bits: [i + 8] could only overflow for [n]
    within 8 of the largest [int], far beyond the length of any slice, and
    a store past the end of the slice has panicked long before. *)
Equations? zeroFrames (isLeft : bool) (n i : Z) (p : buf) : outcome buf
  by wf (Z.to_nat (n - i)) lt :=
  zeroFrames isLeft n i p with decide (i + 8 <= n) := {
    | left _ with silence isLeft i p := {
        | Returned p' := zeroFrames isLeft n (i + 8) p';
        | Panicked := Panicked;
        | Fatal := Fatal };
    | right _ := Returned p }.
Proof. lia. Qed.

(** What one call of an [io.ReadSeeker]'s [Read] hands back: the stream
    after the call, the slice's contents after the call, and the two
    results [n] and [err]. *)
Record readResult (S : Type) := ReadResult {
  rr_src : S;
  rr_data : list byte;
  rr_n : Z;
  rr_err : error }.
Arguments ReadResult {S}.
Arguments rr_src {S}.
Arguments rr_data {S}.
Arguments rr_n {S}.
Arguments rr_err {S}.

(** The interface [io.ReadSeeker].  A callee cannot resize the caller's
    slice, which is all [rs_Read_length] says; the documented contract
    [0 <= n <= len(p)] is not part of the interface ([obeys]). *)
Class ReadSeeker (S : Type) := {
  rs_Read : S -> list byte -> readResult S;
  rs_Seek : S -> Z -> Z -> S * Z * error;
  rs_Read_length : forall s p, length (rr_data (rs_Read s p)) = length p }.

(** The contract of [io.Reader] for one call. *)
Definition obeys {S} `{ReadSeeker S} (s : S) (p : list byte) : Prop :=
  0 <= rr_n (rs_Read s p) <= Z.of_nat (length p).

Record SingleChannelStream (S : Type) := {
  src : S;
  isLeft : bool }.
Arguments src {S}.
Arguments isLeft {S}.

Definition NewSingleChannelStream {S} (src : S) (isLeft : bool)
  : SingleChannelStream S :=
  {| src := src; isLeft := isLeft |}.

(** What [SingleChannelStream.Read] hands back. *)
Record filtered (S : Type) := Filtered {
  f_stream : SingleChannelStream S;
  f_buf : buf;
  f_n : Z;
  f_err : error }.
Arguments Filtered {S}.
Arguments f_stream {S}.
Arguments f_buf {S}.
Arguments f_n {S}.
Arguments f_err {S}.

Definition Read {S} `{ReadSeeker S} (s : SingleChannelStream S)
  (p : list byte) : outcome (filtered S) :=
  let r := rs_Read (src s) p in
  p' ← zeroFrames (isLeft s) (rr_n r) 0 (Buf (rr_data r) []);
  mret (Filtered {| src := rr_src r; isLeft := isLeft s |}
                 p' (rr_n r) (rr_err r)).

(** [Seek] is promoted from the embedded [io.ReadSeeker]. *)
Definition Seek {S} `{ReadSeeker S} (s : SingleChannelStream S)
  (offset whence : Z) : SingleChannelStream S * Z * error :=
  let '(src', pos, err) := rs_Seek (src s) offset whence in
  ({| src := src'; isLeft := isLeft s |}, pos, err).

(** *** Two readers to run the filter on *)

(** An in-memory reader in the manner of [bytes.Reader]: it copies what
    is left of [content] into the front of [p]. *)
Record memReader := MemReader { content : list byte; pos : nat }.

Definition EOF : error := Some "EOF"%string.

Definition memRead (r : memReader) (p : list byte) : readResult memReader :=
  let rest := drop (pos r) (content r) in
  match rest with
  | [] => ReadResult r p 0 EOF
  | _ =>
    let k := Nat.min (length p) (length rest) in
    ReadResult (MemReader (content r) (pos r + k))
               (take k rest ++ drop k p) (Z.of_nat k) None
  end.

Definition memSeek (r : memReader) (offset whence : Z)
  : memReader * Z * error :=
  let base :=
    if whence =? 0 then 0
    else if whence =? 1 then Z.of_nat (pos r)
    else Z.of_nat (length (content r)) in
  if base + offset <? 0
  then (r, 0, Some "negative position"%string)
  else (MemReader (content r) (Z.to_nat (base + offset)), base + offset, None).

#[export] Instance memReader_ReadSeeker : ReadSeeker memReader.
Proof.
  refine {| rs_Read := memRead; rs_Seek := memSeek |}.
  intros r p. unfold memRead.
  destruct (drop (pos r) (content r)) as [|b rest]; [reflexivity|].
  cbn [rr_data]. rewrite length_app, length_take, length_drop. lia.
Defined.

(** A reader that breaks the contract: it reports [n] bytes whatever the
    size of [p]. *)
Record liar := Liar { claimed : Z }.

#[export] Instance liar_ReadSeeker : ReadSeeker liar := {|
  rs_Read := fun s p => ReadResult s p (claimed s) None;
  rs_Seek := fun s _ _ => (s, 0, None);
  rs_Read_length := fun _ _ => eq_refl |}.

Definition bytes_of (l : list nat) : list byte :=
  map (fun k => default Byte.x00 (Byte.of_nat k)) l.

(** *** The vocabulary of the filter's properties *)

(** The first byte of the channel that [Read] silences, within a frame. *)
Definition offset (isLeft : bool) : Z := if isLeft then 4 else 0.

(** Index [j] lies in a complete frame of the range [i .. n). *)
Definition inFrames (n i j : Z) : Prop := i <= j < i + 8 * ((n - i) / 8).

(** Index [j] belongs to the channel silenced by the frames laid out from [i]. *)
Definition unwanted (isLeft : bool) (i j : Z) : Prop :=
  offset isLeft <= (j - i) mod 8 < offset isLeft + 4.

(** Index [x] is one that [Read] silences when the underlying stream
    returned [n] bytes: it lies in a complete frame and in the channel
    that is not kept. *)
Definition silenced (isLeft : bool) (n x : Z) : Prop :=
  0 <= x < 8 * (n / 8) /\ offset isLeft <= x mod 8 < offset isLeft + 4.

(** [uint8] addition. *)
Definition byte_add (a b : byte) : byte :=
  default Byte.x00 (Byte.of_N ((Byte.to_N a + Byte.to_N b) mod 256)).

(** The sum of two bytes read from two slices; [None] past either end. *)
Definition byte_sum (a b : option byte) : option byte :=
  match a, b with
  | Some x, Some y => Some (byte_add x y)
  | _, _ => None
  end.

(** The sixteen bytes of the scenario. *)
Definition sixteen : list byte := bytes_of (seq 1 16).

(** ** The panning controller *)

(** *** float64 *)

(** [float64] values are the real numbers that [rnd], rounding to the
    nearest representable number, leaves alone; every operation rounds
    its exact result, each one on its own.  Of the rounding only what
    IEEE 754 guarantees for binary64 is kept: it is monotone, idempotent,
    odd, and exact on the integers up to [2^53].  [Cos] is [math.Cos] on
    finite arguments, of which the controller needs that it stays in
    [-1, 1] and is 1 at 0, and [Pi] is the constant [math.Pi].  No
    operation of the controller leaves the finite range, so infinities
    and NaN are not represented. *)
Class Float64 := {
  rnd : R -> R;
  Cos : R -> R;
  Pi : R;
  rnd_le : forall x y : R, (x <= y)%R -> (rnd x <= rnd y)%R;
  rnd_idem : forall x : R, rnd (rnd x) = rnd x;
  rnd_opp : forall x : R, rnd (- x) = (- rnd x)%R;
  rnd_IZR : forall z : Z, Z.abs z <= 2 ^ 53 -> rnd (IZR z) = IZR z;
  Cos_range : forall x : R, (-1 <= Cos x <= 1)%R;
  Cos_0 : Cos 0 = 1%R }.

(** Exact arithmetic: nothing is rounded, [math.Cos] is the cosine. *)
#[export] Instance exact : Float64.
Proof.
  refine {| rnd := fun x => x; Cos := cos; Pi := PI |}.
  - intros x y Hxy. exact Hxy.
  - reflexivity.
  - reflexivity.
  - reflexivity.
  - intros x. apply COS_bound.
  - exact cos_0.
Defined.

(** How far [float64] arithmetic strays: a rounding moves a value by at
    most its relative half-ulp and the smallest subnormal, [math.Pi] is
    the real [PI] to sixty bits, and [math.Cos] stays within [cos_err] of
    the cosine. *)
Class Float64Accuracy (F : Float64) := {
  cos_err : R;
  rnd_error : forall x : R,
    (Rabs (rnd x - x) <= Rabs x / 2 ^ 53 + / 2 ^ 1074)%R;
  Pi_error : (Rabs (Pi - PI) <= / 2 ^ 60)%R;
  Cos_error : forall x : R, (Rabs (Cos x - cos x) <= cos_err)%R }.

#[export] Instance exact_accuracy : Float64Accuracy exact.
Proof.
  refine {| cos_err := 0%R |}.
  - intros x. cbn [rnd exact].
    replace (x - x)%R with 0%R by lra. rewrite Rabs_R0.
    pose proof (Rabs_pos x).
    assert (0 < / 2 ^ 1074)%R by (apply Rinv_0_lt_compat, pow_lt; lra).
    assert (0 <= Rabs x / 2 ^ 53)%R.
    { apply Rmult_le_pos; [assumption|].
      left. apply Rinv_0_lt_compat, pow_lt. lra. }
    lra.
  - cbn [Pi exact]. replace (PI - PI)%R with 0%R by lra. rewrite Rabs_R0.
    left. apply Rinv_0_lt_compat, pow_lt. lra.
  - intros x. cbn [Cos exact].
    replace (cos x - cos x)%R with 0%R by lra. rewrite Rabs_R0. lra.
Defined.

Section Controller.
Context {F : Float64}.

Definition fadd (x y : R) : R := rnd (x + y).
Definition fsub (x y : R) : R := rnd (x - y).
Definition fmul (x y : R) : R := rnd (x * y).
Definition fdiv (x y : R) : R := rnd (x / y).

(** The conversion [float64(z)] of an [int]. *)
Definition float64 (z : Z) : R := rnd (IZR z).

(** [math.Min] on finite arguments. *)
Definition Min (x y : R) : R := Rmin x y.

Definition screenWidth : Z := 640.
Definition screenHeight : Z := 480.
Definition sampleRate : Z := 48000.

(** Go's [int] on a 64-bit target: [count++] wraps around. *)
Definition wrap (z : Z) : Z := (z + 2 ^ 63) mod 2 ^ 64 - 2 ^ 63.

(** *** The audio library *)

(** A decoded, looping source is known by the number of the decode that
    made it. *)
Record Player := {
  stream : SingleChannelStream nat;
  volume : R;
  playing : bool }.

(** What the controller can observe of the audio library: how many
    contexts, decodes and players it has constructed, and which of the
    fallible calls still to come will fail ([true]; none once the list is
    exhausted). *)
Record World := {
  contexts : nat;
  decodes : nat;
  handles : nat;
  faults : list bool }.

Definition failure : error := Some "failure"%string.

Definition attempt (w : World) : error * list bool :=
  match faults w with
  | [] => (None, [])
  | true :: fs => (failure, fs)
  | false :: fs => (None, fs)
  end.

(** [audio.NewContext(sampleRate)]. *)
Definition NewContext (rate : Z) (w : World) : nat * World :=
  (contexts w,
   {| contexts := S (contexts w); decodes := decodes w;
      handles := handles w; faults := faults w |}).

(** [vorbis.DecodeF32(bytes.NewReader(raudio.Ragtime_ogg))]. *)
Definition DecodeF32 (w : World) : nat * error * World :=
  let '(err, fs) := attempt w in
  match err with
  | Some _ =>
    (O, err,
     {| contexts := contexts w; decodes := decodes w;
        handles := handles w; faults := fs |})
  | None =>
    (decodes w, err,
     {| contexts := contexts w; decodes := S (decodes w);
        handles := handles w; faults := fs |})
  end.

(** [audio.NewInfiniteLoop(s, s.Length())]: the same source, looping. *)
Definition NewInfiniteLoop (s : nat) : nat := s.

(** [g.audioContext.NewPlayerF32(src)]: a player is handed over only
    when the call succeeds; it starts at full volume, not playing. *)
Definition NewPlayerF32 (ctx : nat) (s : SingleChannelStream nat) (w : World)
  : option Player * error * World :=
  let '(err, fs) := attempt w in
  match err with
  | Some _ =>
    (None, err,
     {| contexts := contexts w; decodes := decodes w;
        handles := handles w; faults := fs |})
  | None =>
    (Some {| stream := s; volume := 1; playing := false |}, err,
     {| contexts := contexts w; decodes := decodes w;
        handles := S (handles w); faults := fs |})
  end.

(** [p.Play()] on a possibly nil player. *)
Definition Play (p : option Player) : outcome (option Player) :=
  match p with
  | None => Panicked
  | Some pl =>
    Returned (Some {| stream := stream pl; volume := volume pl;
                      playing := true |})
  end.

Definition with_volume (pl : Player) (v : R) : Player :=
  {| stream := stream pl; volume := v; playing := playing pl |}.

(** [p.SetVolume(v)] on a possibly nil player; the library panics on a
    volume outside [0, 1]. *)
Definition SetVolume (p : option Player) (v : R) : outcome (option Player) :=
  match p with
  | None => Panicked
  | Some pl =>
    if Rle_dec 0 v then
      if Rle_dec v 1 then Returned (Some (with_volume pl v))
      else Panicked
    else Panicked
  end.

(** *** Game *)

Record Game := {
  playerLeft : option Player;
  playerRight : option Player;
  panning : R;
  count : Z;
  xpos : R;
  audioContext : option nat }.

(** [&Game{}]. *)
Definition newGame : Game :=
  {| playerLeft := None; playerRight := None; panning := 0; count := 0;
     xpos := 0; audioContext := None |}.

Definition with_players (g : Game) (l r : option Player) : Game :=
  {| playerLeft := l; playerRight := r; panning := panning g;
     count := count g; xpos := xpos g; audioContext := audioContext g |}.

Definition with_context (g : Game) (c : nat) : Game :=
  {| playerLeft := playerLeft g; playerRight := playerRight g;
     panning := panning g; count := count g; xpos := xpos g;
     audioContext := Some c |}.

Definition initAudioIfNeeded (g : Game) (w : World) : outcome (Game * World) :=
  match playerLeft g with
  | Some _ => Returned (g, w)
  | None =>
    let '(g, ctx, w) :=
      match audioContext g with
      | Some c => (g, c, w)
      | None => let '(c, w) := NewContext sampleRate w in (with_context g c, c, w)
      end in
    let '(oggSL, err, w) := DecodeF32 w in
    match err with Some _ => Fatal | None =>
    let leftStream := NewSingleChannelStream (NewInfiniteLoop oggSL) true in
    let '(pl, err, w) := NewPlayerF32 ctx leftStream w in
    let g := with_players g pl (playerRight g) in
    match err with Some _ => Fatal | None =>
    let '(oggSR, err, w) := DecodeF32 w in
    match err with Some _ => Fatal | None =>
    let rightStream := NewSingleChannelStream (NewInfiniteLoop oggSR) false in
    let '(pr, err, w) := NewPlayerF32 ctx rightStream w in
    let g := with_players g (playerLeft g) pr in
    match err with Some _ => Fatal | None =>
    l ← Play (playerLeft g);
    r ← Play (playerRight g);
    Returned (with_players g l r, w)
    end end end end
  end.

(** [a*(1-t) + b*t]. *)
Definition lerp (a b t : R) : R := fadd (fmul a (fsub 1 t)) (fmul b t).

(** The two constants of the phase: [(1.0 / 60.0) * 2 * math.Pi] is
    folded exactly and rounded once, and so is [0.1]. *)
Definition step : R := rnd ((1 / 60) * 2 * Pi).
Definition tenth : R := rnd (1 / 10).

(** [float64(screenWidth) / 2], a constant expression. *)
Definition half : R := rnd (IZR screenWidth / 2).

(** Lines 99 to 101 of [Update], for the counter [c] they read. *)
Definition phaseAt (c : Z) : R := fmul (fmul (float64 c) step) tenth.
Definition xposAt (c : Z) : R := fadd half (fmul (Cos (phaseAt c)) half).
Definition panningAt (c : Z) : R :=
  lerp (-1) 1 (fdiv (xposAt c) (float64 screenWidth)).

Definition leftVolume (panning : R) : R := Min (fadd (fmul panning (-1)) 1) 1.
Definition rightVolume (panning : R) : R := Min (fadd panning 1) 1.

Definition Update (g : Game) (w : World) : outcome (Game * World) :=
  let c := wrap (count g + 1) in
  let g := {| playerLeft := playerLeft g; playerRight := playerRight g;
              panning := panningAt c; count := c; xpos := xposAt c;
              audioContext := audioContext g |} in
  '(g, w) ← initAudioIfNeeded g w;
  l ← SetVolume (playerLeft g) (leftVolume (panning g));
  r ← SetVolume (playerRight g) (rightVolume (panning g));
  Returned (with_players g l r, w).

(** [k] ticks of the host loop, from [&Game{}]. *)
Fixpoint ticks (k : nat) (w : World) : outcome (Game * World) :=
  match k with
  | O => Returned (newGame, w)
  | S k => '(g, w) ← ticks k w; Update g w
  end.

(** *** The vocabulary of the controller's properties *)

(** The two players as [initAudioIfNeeded] makes them. *)
Definition leftPlayer (w : World) : Player :=
  {| stream := NewSingleChannelStream (decodes w) true; volume := 1;
     playing := true |}.
Definition rightPlayer (w : World) : Player :=
  {| stream := NewSingleChannelStream (S (decodes w)) false; volume := 1;
     playing := true |}.

(** The game as [Update] has it when it calls [initAudioIfNeeded]. *)
Definition moved (g : Game) : Game :=
  {| playerLeft := playerLeft g; playerRight := playerRight g;
     panning := panningAt (wrap (count g + 1)); count := wrap (count g + 1);
     xpos := xposAt (wrap (count g + 1)); audioContext := audioContext g |}.

(** A game whose two players exist, the left one on the keep-left stream
    and the right one on the keep-right stream, both playing. *)
Definition ready (g : Game) : Prop :=
  exists pl pr,
    playerLeft g = Some pl /\ playerRight g = Some pr /\
    isLeft (stream pl) = true /\ isLeft (stream pr) = false /\
    playing pl = true /\ playing pr = true.

(** The next four fallible calls of the audio library succeed. *)
Definition sound (w : World) : Prop :=
  forall b, b ∈ take 4 (faults w) -> b = false.

(** A world in which nothing has been constructed and nothing fails. *)
Definition quiet : World :=
  {| contexts := 0; decodes := 0; handles := 0; faults := [] |}.

End Controller.

(** *** Draw *)

Section Display.
Context {F : Float64}.

(** What [Draw] hands to the screen: the three numbers it formats into
    the debug text, and the translation of the marker image. *)
Record Frame := {
  shownTPS : R;
  shownSeconds : R;
  shownPanning : R;
  markerX : R;
  markerY : R }.

(** [p.Position()] on a possibly nil player; [elapsed] is what the audio
    library reports, a [time.Duration] in nanoseconds. *)
Definition Position (p : option Player) (elapsed : Z) : outcome Z :=
  match p with
  | None => Panicked
  | Some _ => Returned elapsed
  end.

(** [time.Second]. *)
Definition Second : Z := 1000000000.

(** [Draw]; [tps] is [ebiten.ActualTPS()] and [imageWidth] is
    [ebitenImage.Bounds().Dx()], which [main] sets before the loop. *)
Definition Draw (g : Game) (tps : R) (elapsed imageWidth : Z) : outcome Frame :=
  pos ← Position (playerLeft g) elapsed;
  Returned {| shownTPS := tps;
              shownSeconds := fdiv (float64 pos) (float64 Second);
              shownPanning := panning g;
              markerX := fsub (xpos g) (float64 (Z.quot imageWidth 2));
              markerY := float64 (Z.quot screenHeight 2) |}.

End Display.

(** * Properties *)

(** ** The filter *)

Lemma store_Returned p i v q :
  store p i v = Returned q ->
  0 <= i < Z.of_nat (length (data p)) /\
  data q = <[Z.to_nat i := v]> (data p) /\ stores q = i :: stores p.
Proof.
  unfold store. destruct (decide _) as [Hi|Hi]; [|discriminate].
  intros [= <-]. auto.
Qed.

Lemma store_in_range p i v :
  0 <= i < Z.of_nat (length (data p)) ->
  store p i v = Returned (Buf (<[Z.to_nat i := v]> (data p)) (i :: stores p)).
Proof. intros Hi. unfold store. destruct (decide _); [reflexivity|contradiction]. Qed.

Lemma silence_Returned isLeft i p q :
  silence isLeft i p = Returned q ->
  0 <= i + offset isLeft /\
  i + offset isLeft + 3 < Z.of_nat (length (data p)) /\
  length (data q) = length (data p) /\
  stores q = [i + offset isLeft + 3; i + offset isLeft + 2;
              i + offset isLeft + 1; i + offset isLeft] ++ stores p /\
  forall j : nat,
    data q !! j =
    if decide (i + offset isLeft <= Z.of_nat j < i + offset isLeft + 4)
    then Some Byte.x00 else data p !! j.
Proof.
  unfold silence, offset. intros H.
  destruct isLeft; cbn in H.
  all: repeat match type of H with
    | context [store ?p ?i ?v] =>
      let E := fresh "E" in let p' := fresh "p" in
      destruct (store p i v) as [p'| |] eqn:E; cbn in H; try discriminate;
      apply store_Returned in E; destruct E as (? & ? & ?)
    end.
  all: injection H as <-.
  all: repeat match goal with
    | E : data ?a = <[_ := _]> (data ?b) |- _ =>
      assert (length (data a) = length (data b))
        by (rewrite E; apply length_insert);
      revert E
    end; intros.
  all: repeat split; try lia.
  all: try (cbn [app];
             repeat match goal with
               | E : stores _ = _ |- _ => rewrite E; clear E
               end;
             repeat (f_equal; try lia); fail).
  all: intros j; destruct (decide _) as [Hj|Hj].
  all: repeat match goal with
    | E : data ?a = <[_ := _]> (data ?b) |- context [data ?a] => rewrite E
    end.
  all: rewrite !list_lookup_insert, !length_insert.
  all: repeat case_decide; try reflexivity; lia.
Qed.

Lemma silence_in_range isLeft i p :
  0 <= i + offset isLeft ->
  i + offset isLeft + 3 < Z.of_nat (length (data p)) ->
  exists q, silence isLeft i p = Returned q.
Proof.
  unfold silence, offset. intros Hlo Hhi.
  destruct isLeft.
  all: repeat (rewrite store_in_range by (cbn [data]; rewrite ?length_insert; lia);
               cbn [mbind outcome_bind]).
  all: eauto.
Qed.

Lemma frames_step isLeft n i j :
  i + 8 <= n ->
  inFrames n i j /\ unwanted isLeft i j <->
  i + offset isLeft <= j < i + offset isLeft + 4 \/
  inFrames n (i + 8) j /\ unwanted isLeft (i + 8) j.
Proof.
  unfold inFrames, unwanted, offset. intros Hn.
  destruct isLeft; Z.div_mod_to_equations; lia.
Qed.

Lemma frames_done n i j : ~ i + 8 <= n -> ~ inFrames n i j.
Proof. unfold inFrames. intros Hn. Z.div_mod_to_equations. lia. Qed.

(** The loop, entered at [i]: what it leaves in the slice and where it
    stored. *)
Lemma zeroFrames_Returned isLeft n i p q :
  zeroFrames isLeft n i p = Returned q ->
  length (data q) = length (data p) /\
  (forall j : nat,
     data q !! j =
     if decide (inFrames n i (Z.of_nat j) /\ unwanted isLeft i (Z.of_nat j))
     then Some Byte.x00 else data p !! j) /\
  (forall x, x ∈ stores q <->
     x ∈ stores p \/ (inFrames n i x /\ unwanted isLeft i x)).
Proof.
  revert q. funelim (zeroFrames isLeft n i p); intros q Hq.
  all: repeat match goal with E : decide _ = _ |- _ => clear E end.
  - (* the loop is left *)
    injection Hq as <-. split; [reflexivity|]. split.
    + intros j. case_decide as Hin; [|reflexivity].
      exfalso. destruct Hin as [Hin _]. eapply frames_done; eassumption.
    + intros x. split; [auto|]. intros [Hx|[Hin _]]; [exact Hx|].
      exfalso. eapply frames_done; eassumption.
  - (* one more frame *)
    match goal with
    | IH : forall q, _ -> _ |- _ => destruct (IH _ Hq) as (IHlen & IHdata & IHst)
    end.
    match goal with
    | E : silence _ _ _ = Returned _ |- _ =>
      apply silence_Returned in E; destruct E as (Hlo & Hhi & Hlen & Hst & Hdata)
    end.
    split; [congruence|]. split.
    + intros j. rewrite IHdata, Hdata.
      match goal with
      | |- context [unwanted ?b i _] =>
        pose proof (frames_step b n i (Z.of_nat j) l) as Hstep
      end.
      repeat case_decide; try reflexivity; tauto.
    + intros x. rewrite IHst, Hst, (frames_step _ n i x l).
      cbn [app]. rewrite !elem_of_cons. intuition lia.
  - discriminate.
  - discriminate.
Qed.

(** The loop does not panic when every complete frame of [i .. n) lies
    inside the slice. *)
Lemma zeroFrames_in_range isLeft n i p :
  0 <= i -> n <= Z.of_nat (length (data p)) ->
  exists q, zeroFrames isLeft n i p = Returned q.
Proof.
  funelim (zeroFrames isLeft n i p); intros Hi Hn.
  - eauto.
  - match goal with
    | IH : _ -> _ -> exists q, _ |- _ => apply IH; [lia|]
    end.
    match goal with
    | E : silence _ _ _ = Returned _ |- _ =>
      apply silence_Returned in E; destruct E as (_ & _ & Hlen & _)
    end.
    rewrite Hlen. exact Hn.
  - exfalso.
    match goal with
    | E : silence ?b _ _ = _ |- _ =>
      destruct (silence_in_range b i p) as [q Hq];
        [unfold offset; destruct b; lia ..|congruence]
    end.
  - exfalso.
    match goal with
    | E : silence ?b _ _ = _ |- _ =>
      destruct (silence_in_range b i p) as [q Hq];
        [unfold offset; destruct b; lia ..|congruence]
    end.
Qed.

Lemma silenced_frames isLeft n x :
  inFrames n 0 x /\ unwanted isLeft 0 x <-> silenced isLeft n x.
Proof.
  unfold inFrames, unwanted, silenced. rewrite !Z.sub_0_r, Z.add_0_l.
  reflexivity.
Qed.

Lemma byte_add_0_r a : byte_add a Byte.x00 = a.
Proof. destruct a; reflexivity. Qed.

Lemma byte_add_0_l a : byte_add Byte.x00 a = a.
Proof. destruct a; reflexivity. Qed.

Section Filter.
Context {S : Type} {RS : ReadSeeker S}.
Implicit Types (s : SingleChannelStream S) (p : list byte).

(** Everything a returning [Read] settles, in terms of what the
    underlying stream handed back. *)
Lemma Read_Returned s p out :
  Read s p = Returned out ->
  f_stream out = {| src := rr_src (rs_Read (src s) p); isLeft := isLeft s |} /\
  f_n out = rr_n (rs_Read (src s) p) /\
  f_err out = rr_err (rs_Read (src s) p) /\
  length (data (f_buf out)) = length p /\
  (forall j : nat,
     data (f_buf out) !! j =
     if decide (silenced (isLeft s) (f_n out) (Z.of_nat j))
     then Some Byte.x00 else rr_data (rs_Read (src s) p) !! j) /\
  (forall x, x ∈ stores (f_buf out) <-> silenced (isLeft s) (f_n out) x).
Proof.
  unfold Read. intros H.
  destruct (zeroFrames _ _ _ _) as [q| |] eqn:E; cbn in H; try discriminate.
  injection H as <-. cbn.
  apply zeroFrames_Returned in E. cbn [data stores] in E.
  destruct E as (Hlen & Hdata & Hst).
  split_and!; try reflexivity.
  - rewrite Hlen. apply rs_Read_length.
  - intros j. rewrite Hdata.
    pose proof (silenced_frames (isLeft s) (rr_n (rs_Read (src s) p)) (Z.of_nat j)).
    repeat case_decide; try reflexivity; tauto.
  - intros x. rewrite Hst, silenced_frames, elem_of_nil. tauto.
Qed.

(** [Read] returns whenever the underlying stream reports no more bytes
    than the slice holds. *)
Lemma Read_returns s p :
  rr_n (rs_Read (src s) p) <= Z.of_nat (length p) ->
  exists out, Read s p = Returned out.
Proof.
  intros Hn. unfold Read.
  destruct (zeroFrames_in_range (isLeft s) (rr_n (rs_Read (src s) p)) 0
              (Buf (rr_data (rs_Read (src s) p)) [])) as [q Hq].
  - lia.
  - cbn [data]. rewrite rs_Read_length. exact Hn.
  - rewrite Hq. cbn. eauto.
Qed.

(** The loop never ends the process. *)
Lemma silence_not_Fatal isLeft i (q : buf) : silence isLeft i q <> Fatal.
Proof.
  unfold silence, store. destruct isLeft.
  all: repeat (case_decide; cbn [mbind outcome_bind data]); discriminate.
Qed.

Lemma zeroFrames_not_Fatal isLeft n i (q : buf) : zeroFrames isLeft n i q <> Fatal.
Proof.
  funelim (zeroFrames isLeft n i q); try discriminate; try assumption.
  exfalso. eapply silence_not_Fatal. eassumption.
Qed.

End Filter.

Lemma silenced_frame isLeft n (k o : nat) :
  8 * Z.of_nat k + 8 <= n -> (o < 4)%nat ->
  silenced isLeft n (Z.of_nat (8 * k + Z.to_nat (offset isLeft) + o)) /\
  ~ silenced isLeft n (Z.of_nat (8 * k + Z.to_nat (4 - offset isLeft) + o)).
Proof.
  unfold silenced, offset. intros Hk Ho.
  destruct isLeft; cbn [Z.to_nat Z.sub]; Z.div_mod_to_equations; lia.
Qed.

Lemma silenced_below isLeft n x : silenced isLeft n x -> 0 <= x < n.
Proof. unfold silenced. intros [Hx _]. Z.div_mod_to_equations. lia. Qed.

Lemma silenced_frame_start isLeft n x :
  silenced isLeft n x ->
  exists i, 0 <= i /\ i mod 8 = 0 /\ i + 8 <= n /\ i <= x <= i + 7.
Proof.
  unfold silenced. intros [Hx _]. exists (8 * (x / 8)).
  split_and!; [| rewrite Z.mul_comm; apply Z.mod_mul; lia | ..];
    Z.div_mod_to_equations; lia.
Qed.

Lemma silenced_one_of n x :
  0 <= x < 8 * (n / 8) ->
  silenced true n x /\ ~ silenced false n x \/
  silenced false n x /\ ~ silenced true n x.
Proof. unfold silenced, offset. intros Hx. Z.div_mod_to_equations. lia. Qed.

(** C1. Whenever [Read] returns, in every complete 8-byte frame of the
    returned range the keep-left filter has zeroed bytes 4..7 and left
    bytes 0..3 as the underlying stream delivered them, and the
    keep-right filter has zeroed bytes 0..3 and left bytes 4..7; [Read]
    does return when the underlying stream reports no more bytes than the
    slice holds.  The sixteen bytes 1..16 become 1,2,3,4,0,0,0,0,
    9,10,11,12,0,0,0,0 under keep-left and 0,0,0,0,5,6,7,8,0,0,0,0,
    13,14,15,16 under keep-right. *)
Theorem Read_isolates_channel {S : Type} `{ReadSeeker S}
  (s : SingleChannelStream S) (p : list byte) :
  (rr_n (rs_Read (src s) p) <= Z.of_nat (length p) ->
   exists out, Read s p = Returned out) /\
  (forall out, Read s p = Returned out ->
   forall k o : nat, 8 * Z.of_nat k + 8 <= f_n out -> (o < 4)%nat ->
     let input := rr_data (rs_Read (src s) p) in
     let output := data (f_buf out) in
     if isLeft s then
       output !! (8 * k + 4 + o)%nat = Some Byte.x00 /\
       output !! (8 * k + o)%nat = input !! (8 * k + o)%nat
     else
       output !! (8 * k + o)%nat = Some Byte.x00 /\
       output !! (8 * k + 4 + o)%nat = input !! (8 * k + 4 + o)%nat) /\
  (rr_data (rs_Read (src s) p) = sixteen -> rr_n (rs_Read (src s) p) = 16 ->
   exists out, Read s p = Returned out /\
     data (f_buf out) =
     if isLeft s
     then bytes_of [1; 2; 3; 4; 0; 0; 0; 0; 9; 10; 11; 12; 0; 0; 0; 0]%nat
     else bytes_of [0; 0; 0; 0; 5; 6; 7; 8; 0; 0; 0; 0; 13; 14; 15; 16]%nat).
Proof.
  split; [apply Read_returns|]. split.
  - intros out Hout k o Hk Ho.
    destruct (Read_Returned s p out Hout) as (_ & _ & _ & _ & Hdata & _).
    destruct (silenced_frame (isLeft s) (f_n out) k o Hk Ho) as [Hyes Hno].
    cbn zeta. rewrite !Hdata.
    destruct (isLeft s); cbn [offset Z.to_nat Z.sub Pos.to_nat Pos.iter_op Nat.add] in Hyes, Hno.
    + rewrite Nat.add_0_r in Hno.
      repeat case_decide; tauto.
    + rewrite Nat.add_0_r in Hyes.
      repeat case_decide; tauto.
  - intros Hdata Hn. unfold Read. rewrite Hdata, Hn.
    destruct (isLeft s); eexists; (split; [reflexivity|]); reflexivity.
Qed.

Lemma Read_isolates_channel_witness :
  exists out,
    Read (NewSingleChannelStream (MemReader sixteen 0) true)
         (replicate 16 Byte.x00) = Returned out /\
    data (f_buf out) !! 14%nat = Some Byte.x00 /\
    data (f_buf out) !! 10%nat = Some Byte.x0b /\
    data (f_buf out) =
    bytes_of [1; 2; 3; 4; 0; 0; 0; 0; 9; 10; 11; 12; 0; 0; 0; 0]%nat.
Proof.
  destruct (Read_isolates_channel
              (NewSingleChannelStream (MemReader sixteen 0) true)
              (replicate 16 Byte.x00)) as (Hret & Hframes & Hex).
  destruct Hex as (out & Hout & Hdata); [reflexivity | reflexivity |].
  exists out. split; [exact Hout|].
  assert (Hn : f_n out = 16).
  { vm_compute in Hout. injection Hout as <-. reflexivity. }
  specialize (Hframes out Hout 1%nat 2%nat).
  rewrite Hn in Hframes.
  destruct Hframes as [Hzero Hkept]; [cbn; lia | lia |].
  split; [exact Hzero|]. split; [|exact Hdata].
  etransitivity; [exact Hkept|]. reflexivity.
Defined.

(** C5. Whenever [Read] returns a count that is not a multiple of 8,
    between 1 and 7 bytes lie past the last complete frame, and either
    filter leaves each of them as the underlying stream delivered it. *)
Theorem Read_keeps_partial_frame {S : Type} `{ReadSeeker S}
  (s : SingleChannelStream S) (p : list byte) (out : filtered S) :
  Read s p = Returned out ->
  f_n out mod 8 <> 0 ->
  1 <= f_n out - 8 * (f_n out / 8) <= 7 /\
  forall j : nat,
    8 * (f_n out / 8) <= Z.of_nat j < f_n out ->
    data (f_buf out) !! j = rr_data (rs_Read (src s) p) !! j.
Proof.
  intros Hout Hn. split; [Z.div_mod_to_equations; lia|].
  intros j Hj.
  destruct (Read_Returned s p out Hout) as (_ & _ & _ & _ & Hdata & _).
  rewrite Hdata. case_decide as Hs; [|reflexivity].
  unfold silenced in Hs. lia.
Qed.

Lemma Read_keeps_partial_frame_witness :
  exists out,
    Read (NewSingleChannelStream (MemReader (bytes_of (seq 1 13)) 0) false)
         (replicate 16 Byte.x00) = Returned out /\
    f_n out = 13 /\
    data (f_buf out) !! 8%nat = Some Byte.x09 /\
    data (f_buf out) !! 12%nat = Some Byte.x0d.
Proof.
  destruct (Read_returns
              (NewSingleChannelStream (MemReader (bytes_of (seq 1 13)) 0) false)
              (replicate 16 Byte.x00)) as [out Hout]; [vm_compute; discriminate|].
  exists out. split; [exact Hout|].
  assert (Hn : f_n out = 13).
  { vm_compute in Hout. injection Hout as <-. reflexivity. }
  split; [exact Hn|].
  destruct (Read_keeps_partial_frame _ _ out Hout) as [_ Hkept].
  { rewrite Hn. vm_compute. discriminate. }
  rewrite Hn in Hkept.
  split; (etransitivity; [apply Hkept; vm_compute; split; congruence|reflexivity]).
Defined.

(** C7. A returning [Read] hands back the count and the error of the
    underlying stream's read, and leaves the stream where that read left
    it; the filter never ends the process, and it returns whenever the
    underlying read keeps to its contract. *)
Theorem Read_passes_count_and_error {S : Type} `{ReadSeeker S}
  (s : SingleChannelStream S) (p : list byte) :
  (forall out, Read s p = Returned out ->
     f_n out = rr_n (rs_Read (src s) p) /\
     f_err out = rr_err (rs_Read (src s) p) /\
     src (f_stream out) = rr_src (rs_Read (src s) p)) /\
  Read s p <> Fatal /\
  (obeys (src s) p -> exists out, Read s p = Returned out).
Proof.
  split; [|split].
  - intros out Hout.
    destruct (Read_Returned s p out Hout) as (Hs & Hn & He & _).
    rewrite Hs. auto.
  - unfold Read. intros Hf.
    destruct (zeroFrames _ _ _ _) eqn:E; cbn in Hf; try discriminate.
    exact (zeroFrames_not_Fatal _ _ _ _ E).
  - intros [_ Hn]. apply Read_returns. exact Hn.
Qed.

Lemma Read_passes_count_and_error_witness :
  exists out,
    Read (NewSingleChannelStream (MemReader sixteen 16) true)
         (replicate 8 Byte.x00) = Returned out /\
    f_n out = 0 /\ f_err out = EOF.
Proof.
  destruct (Read_passes_count_and_error
              (NewSingleChannelStream (MemReader sixteen 16) true)
              (replicate 8 Byte.x00)) as (Hsame & _ & Hret).
  destruct Hret as [out Hout]; [vm_compute; split; discriminate|].
  exists out. split; [exact Hout|].
  destruct (Hsame out Hout) as (Hn & He & _).
  split; [rewrite Hn|rewrite He]; reflexivity.
Defined.

(** A stream that breaks the contract makes [Read] panic. *)
Example Read_liar_panics :
  Read (NewSingleChannelStream (Liar 16) true) (replicate 10 Byte.x00)
  = Panicked.
Proof. reflexivity. Qed.

(** C9. Read through a keep-left and a keep-right filter, the same
    underlying data come out complementary: at every index inside a
    complete frame exactly one of the two filters stored a zero and the
    other left the byte as delivered, so the two outputs add up, byte by
    byte, to the input. *)
Theorem filters_complementary {S : Type} `{ReadSeeker S}
  (src0 : S) (p : list byte) (l r : filtered S) :
  Read (NewSingleChannelStream src0 true) p = Returned l ->
  Read (NewSingleChannelStream src0 false) p = Returned r ->
  f_n l = f_n r /\
  forall j : nat,
    Z.of_nat j < 8 * (f_n l / 8) ->
    exists b,
      rr_data (rs_Read src0 p) !! j = Some b /\
      ((Z.of_nat j ∈ stores (f_buf l)) /\ (Z.of_nat j ∉ stores (f_buf r)) /\
       data (f_buf l) !! j = Some Byte.x00 /\ data (f_buf r) !! j = Some b
       \/
       (Z.of_nat j ∈ stores (f_buf r)) /\ (Z.of_nat j ∉ stores (f_buf l)) /\
       data (f_buf r) !! j = Some Byte.x00 /\ data (f_buf l) !! j = Some b) /\
      byte_sum (data (f_buf l) !! j) (data (f_buf r) !! j) = Some b.
Proof.
  intros Hl Hr.
  destruct (Read_Returned _ p l Hl) as (_ & Hnl & _ & Hlenl & Hdl & Hsl).
  destruct (Read_Returned _ p r Hr) as (_ & Hnr & _ & Hlenr & Hdr & Hsr).
  cbn [NewSingleChannelStream src isLeft] in *.
  assert (Hn : f_n l = f_n r) by congruence.
  split; [exact Hn|]. intros j Hj.
  assert (Hlt : (j < length (rr_data (rs_Read src0 p)))%nat).
  { rewrite rs_Read_length.
    destruct (silenced_one_of (f_n l) (Z.of_nat j)) as [[Hs _]|[Hs _]]; [lia| |].
    - rewrite <- Hlenl. apply lookup_lt_is_Some. rewrite Hdl.
      case_decide; [eauto|contradiction].
    - rewrite <- Hlenr. apply lookup_lt_is_Some. rewrite Hdr, <- Hn.
      case_decide; [eauto|contradiction]. }
  apply lookup_lt_is_Some in Hlt. destruct Hlt as [b Hb].
  exists b. split; [exact Hb|].
  rewrite Hdl, Hdr, Hsl, Hsr, <- Hn, Hb.
  destruct (silenced_one_of (f_n l) (Z.of_nat j)) as [[Hs Hs']|[Hs Hs']]; [lia| |].
  - repeat case_decide; try contradiction.
    split; [left; auto|]. cbn. f_equal. apply byte_add_0_l.
  - repeat case_decide; try contradiction.
    split; [right; auto|]. cbn. f_equal. apply byte_add_0_r.
Qed.

Lemma filters_complementary_witness :
  exists l r,
    Read (NewSingleChannelStream (MemReader sixteen 0) true)
         (replicate 16 Byte.x00) = Returned l /\
    Read (NewSingleChannelStream (MemReader sixteen 0) false)
         (replicate 16 Byte.x00) = Returned r /\
    byte_sum (data (f_buf l) !! 5%nat) (data (f_buf r) !! 5%nat)
    = Some Byte.x06.
Proof.
  destruct (Read_returns (NewSingleChannelStream (MemReader sixteen 0) true)
              (replicate 16 Byte.x00)) as [l Hl]; [vm_compute; discriminate|].
  destruct (Read_returns (NewSingleChannelStream (MemReader sixteen 0) false)
              (replicate 16 Byte.x00)) as [r Hr]; [vm_compute; discriminate|].
  exists l, r. split; [exact Hl|]. split; [exact Hr|].
  destruct (filters_complementary _ _ l r Hl Hr) as [_ Hsum].
  assert (Hn : f_n l = 16).
  { vm_compute in Hl. injection Hl as <-. reflexivity. }
  destruct (Hsum 5%nat) as (b & Hb & _ & Hadd).
  { rewrite Hn. vm_compute. reflexivity. }
  rewrite Hadd, <- Hb. reflexivity.
Defined.

(** C10. When the underlying read reports no more bytes than the slice
    holds, [Read] returns without an index out of range; every index it
    stored to lies in a complete frame below the count [n], hence inside
    the slice, and every byte from index [n] on is as the underlying read
    left it. *)
Theorem Read_in_bounds {S : Type} `{ReadSeeker S}
  (s : SingleChannelStream S) (p : list byte) :
  rr_n (rs_Read (src s) p) <= Z.of_nat (length p) ->
  exists out,
    Read s p = Returned out /\
    length (data (f_buf out)) = length p /\
    (forall x, x ∈ stores (f_buf out) ->
       0 <= x < f_n out /\ x < Z.of_nat (length p) /\
       exists i, 0 <= i /\ i mod 8 = 0 /\ i + 8 <= f_n out /\ i <= x <= i + 7) /\
    (forall j : nat, f_n out <= Z.of_nat j ->
       data (f_buf out) !! j = rr_data (rs_Read (src s) p) !! j).
Proof.
  intros Hn.
  destruct (Read_returns s p Hn) as [out Hout].
  exists out. split; [exact Hout|].
  destruct (Read_Returned s p out Hout) as (_ & Hn' & _ & Hlen & Hdata & Hst).
  split; [exact Hlen|]. split.
  - intros x Hx. apply Hst in Hx.
    pose proof (silenced_below _ _ _ Hx) as Hlt.
    split; [exact Hlt|]. split; [lia|].
    eapply silenced_frame_start. exact Hx.
  - intros j Hj. rewrite Hdata. case_decide as Hs; [|reflexivity].
    apply silenced_below in Hs. lia.
Qed.

Lemma Read_in_bounds_witness :
  exists out,
    Read (NewSingleChannelStream (MemReader (bytes_of (seq 1 13)) 0) true)
         (replicate 16 Byte.x00) = Returned out /\
    stores (f_buf out) = [7; 6; 5; 4] /\
    data (f_buf out) !! 13%nat = Some Byte.x00.
Proof.
  destruct (Read_in_bounds
              (NewSingleChannelStream (MemReader (bytes_of (seq 1 13)) 0) true)
              (replicate 16 Byte.x00)) as (out & Hout & _ & _ & Hrest).
  { vm_compute. discriminate. }
  exists out. split; [exact Hout|].
  assert (Hn : f_n out = 13 /\ stores (f_buf out) = [7; 6; 5; 4]).
  { vm_compute in Hout. injection Hout as <-. split; reflexivity. }
  destruct Hn as [Hn Hst]. split; [exact Hst|].
  rewrite Hrest by (rewrite Hn; vm_compute; discriminate).
  reflexivity.
Defined.

(** ** The controller *)

Section ControllerFacts.
Context {F : Float64}.
Local Open Scope R_scope.

(** *** Rounding *)

Lemma rnd_small (z : Z) (x : R) :
  (Z.abs z <= 2 ^ 53)%Z -> x = IZR z -> rnd x = x.
Proof. intros Hz ->. apply rnd_IZR. exact Hz. Qed.

Ltac small z := apply (rnd_small z); [vm_compute; discriminate | simpl; lra].

Lemma rnd_0 : rnd 0 = 0.
Proof. small 0%Z. Qed.

Lemma rnd_1 : rnd 1 = 1.
Proof. small 1%Z. Qed.

Lemma rnd_m1 : rnd (-1) = -1.
Proof. small (-1)%Z. Qed.

Lemma rnd_2 : rnd 2 = 2.
Proof. small 2%Z. Qed.

Lemma rnd_320 : rnd 320 = 320.
Proof. small 320%Z. Qed.

Lemma rnd_m320 : rnd (-320) = -320.
Proof. small (-320)%Z. Qed.

Lemma rnd_640 : rnd 640 = 640.
Proof. small 640%Z. Qed.

(** Rounding keeps a value between two representable bounds. *)
Lemma rnd_between (a b x : R) :
  rnd a = a -> rnd b = b -> a <= x <= b -> a <= rnd x <= b.
Proof.
  intros Ha Hb [Hax Hxb]. split.
  - rewrite <- Ha. apply rnd_le. exact Hax.
  - rewrite <- Hb. apply rnd_le. exact Hxb.
Qed.

Lemma half_320 : half = 320.
Proof.
  unfold half, screenWidth.
  replace (640 / 2) with 320 by lra. apply rnd_320.
Qed.

Lemma float64_screenWidth : float64 screenWidth = 640.
Proof. unfold float64, screenWidth. apply rnd_640. Qed.

(** *** The pan position *)

Lemma xposAt_range (c : Z) : 0 <= xposAt c <= 640.
Proof.
  unfold xposAt, fadd, fmul. rewrite half_320.
  pose proof (Cos_range (phaseAt c)) as Hc.
  assert (Hm : -320 <= rnd (Cos (phaseAt c) * 320) <= 320).
  { apply rnd_between; [apply rnd_m320 | apply rnd_320 | lra]. }
  apply rnd_between; [apply rnd_0 | apply rnd_640 | lra].
Qed.

Lemma lerp_range (t : R) : 0 <= t <= 1 -> -1 <= lerp (-1) 1 t <= 1.
Proof.
  intros Ht. unfold lerp, fadd, fmul, fsub.
  assert (Hu : 0 <= rnd (1 - t) <= 1).
  { apply rnd_between; [apply rnd_0 | apply rnd_1 | lra]. }
  assert (Hx : -1 <= rnd (-1 * rnd (1 - t)) <= 0).
  { apply rnd_between; [apply rnd_m1 | apply rnd_0 | lra]. }
  assert (Hy : 0 <= rnd (1 * t) <= 1).
  { apply rnd_between; [apply rnd_0 | apply rnd_1 | lra]. }
  apply rnd_between; [apply rnd_m1 | apply rnd_1 | lra].
Qed.

Lemma panningAt_range (c : Z) : -1 <= panningAt c <= 1.
Proof.
  unfold panningAt. apply lerp_range.
  unfold fdiv. rewrite float64_screenWidth.
  pose proof (xposAt_range c) as Hx.
  apply rnd_between; [apply rnd_0 | apply rnd_1 | lra].
Qed.

(** A pan position is a [float64]. *)
Lemma panningAt_float (c : Z) : rnd (panningAt c) = panningAt c.
Proof. unfold panningAt, lerp, fadd. apply rnd_idem. Qed.

(** *** The volumes *)

Lemma leftVolume_law (pan : R) :
  rnd pan = pan -> leftVolume pan = Rmin 1 (fsub 1 pan).
Proof.
  intros Hp. unfold leftVolume, Min, fadd, fmul, fsub.
  replace (pan * -1) with (- pan) by lra.
  rewrite rnd_opp, Hp, Rmin_comm.
  replace (- pan + 1) with (1 - pan) by lra. reflexivity.
Qed.

Lemma rightVolume_law (pan : R) : rightVolume pan = Rmin 1 (fadd 1 pan).
Proof.
  unfold rightVolume, Min, fadd. rewrite Rmin_comm, (Rplus_comm pan 1).
  reflexivity.
Qed.

Lemma leftVolume_range (pan : R) : -1 <= pan <= 1 -> 0 <= leftVolume pan <= 1.
Proof.
  intros Hp. unfold leftVolume, Min, fadd, fmul.
  assert (Hm : -1 <= rnd (pan * -1) <= 1).
  { apply rnd_between; [apply rnd_m1 | apply rnd_1 | lra]. }
  assert (Hs : 0 <= rnd (rnd (pan * -1) + 1) <= 2).
  { apply rnd_between; [apply rnd_0 | apply rnd_2 | lra]. }
  unfold Rmin. destruct (Rle_dec _ _); lra.
Qed.

Lemma rightVolume_range (pan : R) : -1 <= pan <= 1 -> 0 <= rightVolume pan <= 1.
Proof.
  intros Hp. unfold rightVolume, Min, fadd.
  assert (Hs : 0 <= rnd (pan + 1) <= 2).
  { apply rnd_between; [apply rnd_0 | apply rnd_2 | lra]. }
  unfold Rmin. destruct (Rle_dec _ _); lra.
Qed.

Lemma volumes_at_centre : leftVolume 0 = 1 /\ rightVolume 0 = 1.
Proof.
  unfold leftVolume, rightVolume, Min, fadd, fmul.
  replace (0 * -1) with 0 by lra. rewrite rnd_0.
  replace (0 + 1) with 1 by lra. rewrite rnd_1.
  unfold Rmin. destruct (Rle_dec 1 1); split; lra.
Qed.

Lemma volumes_at_right : leftVolume 1 = 0 /\ rightVolume 1 = 1.
Proof.
  unfold leftVolume, rightVolume, Min, fadd, fmul.
  replace (1 * -1) with (-1) by lra. rewrite rnd_m1.
  replace (-1 + 1) with 0 by lra. rewrite rnd_0.
  replace (1 + 1) with 2 by lra. rewrite rnd_2.
  unfold Rmin. destruct (Rle_dec 0 1), (Rle_dec 2 1); split; lra.
Qed.

Lemma volumes_at_left : leftVolume (-1) = 1 /\ rightVolume (-1) = 0.
Proof.
  unfold leftVolume, rightVolume, Min, fadd, fmul.
  replace (-1 * -1) with 1 by lra. rewrite rnd_1.
  replace (1 + 1) with 2 by lra. rewrite rnd_2.
  replace (-1 + 1) with 0 by lra. rewrite rnd_0.
  unfold Rmin. destruct (Rle_dec 0 1), (Rle_dec 2 1); split; lra.
Qed.

End ControllerFacts.

Section UpdateFacts.
Context {F : Float64}.

(** *** Initialization *)

Lemma initAudioIfNeeded_done (g : Game) (w : World) :
  is_Some (playerLeft g) -> initAudioIfNeeded g w = Returned (g, w).
Proof. intros [pl Hpl]. unfold initAudioIfNeeded. rewrite Hpl. reflexivity. Qed.

Lemma initAudioIfNeeded_fresh (g : Game) (w : World) (g' : Game) (w' : World) :
  playerLeft g = None ->
  initAudioIfNeeded g w = Returned (g', w') ->
  playerLeft g' = Some (leftPlayer w) /\
  playerRight g' = Some (rightPlayer w) /\
  panning g' = panning g /\ count g' = count g /\ xpos g' = xpos g /\
  is_Some (audioContext g') /\
  contexts w' = (contexts w + match audioContext g with Some _ => 0 | None => 1 end)%nat /\
  decodes w' = (decodes w + 2)%nat /\
  handles w' = (handles w + 2)%nat /\
  faults w' = drop 4 (faults w) /\
  (forall b, b ∈ take 4 (faults w) -> b = false).
Proof.
  intros Hnil. unfold initAudioIfNeeded. rewrite Hnil.
  unfold DecodeF32, NewPlayerF32, NewContext, attempt, leftPlayer, rightPlayer.
  destruct (audioContext g) as [c|] eqn:Hc;
    destruct (faults w) as [|[] [|[] [|[] [|[] fs]]]] eqn:Hf;
    cbn; rewrite ?Hc; cbn; try discriminate.
  all: intros [= <- <-]; cbn.
  all: split_and!; try reflexivity; try (rewrite Hc; eauto; fail);
       try lia; eauto.
  all: intros b Hb; repeat (apply elem_of_cons in Hb as [->|Hb]; [reflexivity|]).
  all: apply elem_of_nil in Hb; contradiction.
Qed.

Lemma initAudioIfNeeded_returns (g : Game) (w : World) :
  playerLeft g = None ->
  (forall b, b ∈ take 4 (faults w) -> b = false) ->
  exists g' w', initAudioIfNeeded g w = Returned (g', w').
Proof.
  intros Hnil Hok. unfold initAudioIfNeeded. rewrite Hnil.
  unfold DecodeF32, NewPlayerF32, NewContext, attempt.
  destruct (audioContext g) as [c|] eqn:Hc;
    destruct (faults w) as [|[] [|[] [|[] [|[] fs]]]] eqn:Hf;
    cbn; rewrite ?Hc; cbn; eauto.
  all: exfalso; cbn in Hok.
  all: match goal with
       | |- False =>
         assert (true = false) by (apply Hok; repeat constructor); discriminate
       end.
Qed.

(** *** One tick *)

Lemma SetVolume_Returned (p : option Player) (v : R) (q : option Player) :
  SetVolume p v = Returned q ->
  exists pl, p = Some pl /\ q = Some (with_volume pl v) /\ (0 <= v <= 1)%R.
Proof.
  unfold SetVolume. destruct p as [pl|]; [|discriminate].
  destruct (Rle_dec 0 v); [|discriminate].
  destruct (Rle_dec v 1); [|discriminate].
  intros [= <-]. eauto.
Qed.

Lemma SetVolume_in_range (pl : Player) (v : R) :
  (0 <= v <= 1)%R -> SetVolume (Some pl) v = Returned (Some (with_volume pl v)).
Proof.
  intros [H0 H1]. unfold SetVolume.
  destruct (Rle_dec 0 v); [|contradiction].
  destruct (Rle_dec v 1); [|contradiction]. reflexivity.
Qed.

Lemma Update_Returned (g : Game) (w : World) (g' : Game) (w' : World) :
  Update g w = Returned (g', w') ->
  count g' = wrap (count g + 1) /\
  panning g' = panningAt (count g') /\
  xpos g' = xposAt (count g') /\
  exists g1 pl pr,
    initAudioIfNeeded (moved g) w = Returned (g1, w') /\
    playerLeft g1 = Some pl /\ playerRight g1 = Some pr /\
    playerLeft g' = Some (with_volume pl (leftVolume (panning g'))) /\
    playerRight g' = Some (with_volume pr (rightVolume (panning g'))).
Proof.
  unfold Update. fold (moved g).
  destruct (initAudioIfNeeded (moved g) w) as [[g1 w1]| |] eqn:Hinit;
    cbn; try discriminate.
  assert (Hkeep : panning g1 = panning (moved g) /\ count g1 = count (moved g)
                  /\ xpos g1 = xpos (moved g)).
  { destruct (playerLeft (moved g)) as [pl|] eqn:Hpl.
    - rewrite initAudioIfNeeded_done in Hinit by (rewrite Hpl; eauto).
      injection Hinit as <- <-. auto.
    - apply initAudioIfNeeded_fresh in Hinit; [|exact Hpl]. tauto. }
  destruct Hkeep as (Hp & Hc & Hx). cbn in Hp, Hc, Hx.
  destruct (SetVolume (playerLeft g1) _) as [l| |] eqn:Hl; cbn; try discriminate.
  destruct (SetVolume (playerRight g1) _) as [r| |] eqn:Hr; cbn; try discriminate.
  intros [= <- <-]. cbn.
  apply SetVolume_Returned in Hl as (pl & Hpl & -> & _).
  apply SetVolume_Returned in Hr as (pr & Hpr & -> & _).
  rewrite Hp, Hc, Hx. split_and!; try reflexivity.
  exists g1, pl, pr. auto.
Qed.

Lemma Update_fresh (g : Game) (w : World) (g' : Game) (w' : World) :
  playerLeft g = None ->
  Update g w = Returned (g', w') ->
  ready g' /\
  playerLeft g' = Some (with_volume (leftPlayer w) (leftVolume (panning g'))) /\
  playerRight g' = Some (with_volume (rightPlayer w) (rightVolume (panning g'))) /\
  handles w' = (handles w + 2)%nat /\ decodes w' = (decodes w + 2)%nat /\
  contexts w' =
    (contexts w + match audioContext g with Some _ => 0 | None => 1 end)%nat /\
  faults w' = drop 4 (faults w).
Proof.
  intros Hnil HU.
  apply Update_Returned in HU
    as (_ & _ & _ & g1 & pl & pr & Hinit & Hpl & Hpr & Hl & Hr).
  apply initAudioIfNeeded_fresh in Hinit; [|exact Hnil].
  destruct Hinit as (Hpl' & Hpr' & _ & _ & _ & _ & Hc & Hd & Hh & Hf & _).
  assert (pl = leftPlayer w) as -> by congruence.
  assert (pr = rightPlayer w) as -> by congruence.
  split_and!; try assumption.
  exists (with_volume (leftPlayer w) (leftVolume (panning g'))),
         (with_volume (rightPlayer w) (rightVolume (panning g'))).
  split_and!; try assumption; reflexivity.
Qed.

Lemma Update_ready (g : Game) (w : World) (g' : Game) (w' : World) :
  ready g ->
  Update g w = Returned (g', w') ->
  ready g' /\ w' = w /\
  (exists pl, playerLeft g = Some pl /\
     playerLeft g' = Some (with_volume pl (leftVolume (panning g')))) /\
  (exists pr, playerRight g = Some pr /\
     playerRight g' = Some (with_volume pr (rightVolume (panning g')))).
Proof.
  intros (pl & pr & Hpl & Hpr & Hsl & Hsr & Hyl & Hyr) HU.
  apply Update_Returned in HU
    as (_ & _ & _ & g1 & pl1 & pr1 & Hinit & Hpl1 & Hpr1 & Hl & Hr).
  rewrite initAudioIfNeeded_done in Hinit by (cbn; rewrite Hpl; eauto).
  injection Hinit as <- <-. cbn in Hpl1, Hpr1.
  assert (pl1 = pl) as -> by congruence.
  assert (pr1 = pr) as -> by congruence.
  split_and!; eauto.
  exists (with_volume pl (leftVolume (panning g'))),
         (with_volume pr (rightVolume (panning g'))).
  split_and!; try assumption; reflexivity.
Qed.

Lemma Update_returns (g : Game) (w : World) :
  playerLeft g = None /\ sound w \/ ready g ->
  exists g' w', Update g w = Returned (g', w').
Proof.
  intros Hg. unfold Update. fold (moved g).
  assert (Hinit : exists g1 w1 pl pr,
            initAudioIfNeeded (moved g) w = Returned (g1, w1) /\
            playerLeft g1 = Some pl /\ playerRight g1 = Some pr /\
            panning g1 = panningAt (wrap (count g + 1))).
  { destruct Hg as [[Hnil Hok]|(pl & pr & Hpl & Hpr & _)].
    - destruct (initAudioIfNeeded_returns (moved g) w Hnil Hok) as (g1 & w1 & H1).
      pose proof (initAudioIfNeeded_fresh (moved g) _ _ _ Hnil H1)
        as (Hl & Hr & Hp & _).
      exists g1, w1, (leftPlayer w), (rightPlayer w). auto.
    - exists (moved g), w, pl, pr.
      rewrite initAudioIfNeeded_done by (cbn; rewrite Hpl; eauto). auto. }
  destruct Hinit as (g1 & w1 & pl & pr & -> & Hpl & Hpr & Hp). cbn.
  rewrite Hpl, Hpr, Hp.
  rewrite !SetVolume_in_range; cbn; eauto.
  - apply leftVolume_range, panningAt_range.
  - apply rightVolume_range, panningAt_range.
Qed.

(** *** Any number of ticks *)

Lemma wrap_succ (z : Z) : wrap (wrap z + 1) = wrap (z + 1).
Proof.
  unfold wrap.
  change (2 ^ 63) with 9223372036854775808.
  change (2 ^ 64) with 18446744073709551616.
  Z.div_mod_to_equations. lia.
Qed.

Lemma wrap_small (z : Z) : - 2 ^ 63 <= z < 2 ^ 63 -> wrap z = z.
Proof.
  unfold wrap.
  change (2 ^ 63) with 9223372036854775808.
  change (2 ^ 64) with 18446744073709551616.
  intros Hz. Z.div_mod_to_equations. lia.
Qed.

Lemma ticks_Returned (k : nat) (w : World) (g : Game) (w' : World) :
  ticks k w = Returned (g, w') ->
  count g = wrap (Z.of_nat k) /\
  match k with
  | O => g = newGame /\ w' = w
  | S _ =>
    ready g /\ panning g = panningAt (count g) /\ xpos g = xposAt (count g) /\
    handles w' = (handles w + 2)%nat /\ decodes w' = (decodes w + 2)%nat /\
    contexts w' = (contexts w + 1)%nat /\ faults w' = drop 4 (faults w)
  end.
Proof.
  revert g w'. induction k as [|k IH]; intros g w' Hk.
  - injection Hk as <- <-. split; [reflexivity|]. auto.
  - cbn [ticks] in Hk.
    destruct (ticks k w) as [[g0 w0]| |] eqn:Hk0; cbn in Hk; try discriminate.
    destruct (IH g0 w0 eq_refl) as [Hc Hstate].
    pose proof (Update_Returned _ _ _ _ Hk) as (Hc' & Hp' & Hx' & _).
    split.
    { rewrite Hc', Hc, wrap_succ. f_equal. lia. }
    destruct k as [|k].
    + destruct Hstate as [-> ->].
      apply Update_fresh in Hk; [|reflexivity].
      destruct Hk as (Hr & _ & _ & Hh & Hd & Hctx & Hf).
      cbn in Hctx. split_and!; assumption.
    + destruct Hstate as (Hr & _ & _ & Hh & Hd & Hctx & Hf).
      apply Update_ready in Hk; [|exact Hr].
      destruct Hk as (Hr' & -> & _). split_and!; assumption.
Qed.

Lemma ticks_returns (k : nat) (w : World) :
  sound w -> exists g w', ticks k w = Returned (g, w').
Proof.
  intros Hw. induction k as [|k (g & w' & IH)].
  - cbn. eauto.
  - cbn [ticks]. rewrite IH. cbn.
    apply Update_returns.
    pose proof (ticks_Returned _ _ _ _ IH) as [_ Hstate].
    destruct k as [|k].
    + destruct Hstate as [-> ->]. left. auto.
    + right. tauto.
Qed.

End UpdateFacts.

Lemma quiet_sound : sound quiet.
Proof. intros b Hb. cbn in Hb. apply elem_of_nil in Hb. contradiction. Qed.



(** C3. The pan position that [Update] computes lies in [-1, 1],
    whatever the tick counter: for every value of the counter, after
    one [Update] from any state, and after any number of ticks from the
    start, which leave the counter at the number of ticks (wrapped to
    64 bits) and do return when the audio library does not fail. *)
Theorem panning_within_bounds {F : Float64} (k : nat) (w : World) :
  (forall c : Z, (-1 <= panningAt c <= 1)%R) /\
  (forall g w0 g' w', Update g w0 = Returned (g', w') ->
     (-1 <= panning g' <= 1)%R) /\
  (forall g w', ticks k w = Returned (g, w') ->
     count g = wrap (Z.of_nat k) /\ (-1 <= panning g <= 1)%R) /\
  (sound w -> exists g w', ticks k w = Returned (g, w')).
Proof.
  split; [apply panningAt_range|]. split; [|split].
  - intros g w0 g' w' HU.
    apply Update_Returned in HU as (_ & -> & _). apply panningAt_range.
  - intros g w' Hk.
    pose proof (ticks_Returned _ _ _ _ Hk) as [Hc Hstate].
    split; [exact Hc|]. destruct k.
    + destruct Hstate as [-> _]. cbn. lra.
    + destruct Hstate as (_ & -> & _). apply panningAt_range.
  - apply ticks_returns.
Qed.

Lemma panning_within_bounds_witness :
  exists g w',
    ticks (F := exact) 5 quiet = Returned (g, w') /\
    count g = 5 /\ (-1 <= panning g <= 1)%R.
Proof.
  destruct (panning_within_bounds (F := exact) 5 quiet) as (_ & _ & Hk & Hret).
  destruct (Hret quiet_sound) as (g & w' & Hgo).
  exists g, w'. split; [exact Hgo|].
  destruct (Hk g w' Hgo) as [Hc Hp]. split; [|exact Hp].
  rewrite Hc. reflexivity.
Defined.

Section Phase.
Context {F : Float64}.
Local Open Scope R_scope.

(** The counter 0: phase 0, cosine 1, the marker at the right edge. *)
Lemma phaseAt_0 : phaseAt 0 = 0.
Proof.
  unfold phaseAt, fmul, float64.
  rewrite rnd_0, Rmult_0_l, rnd_0, Rmult_0_l. apply rnd_0.
Qed.

Lemma xposAt_0 : xposAt 0 = 640.
Proof.
  unfold xposAt, fadd, fmul. rewrite phaseAt_0, Cos_0, half_320.
  rewrite Rmult_1_l, rnd_320.
  replace (320 + 320) with 640 by lra. apply rnd_640.
Qed.

Lemma panningAt_0 : panningAt 0 = 1.
Proof.
  unfold panningAt, fdiv. rewrite xposAt_0, float64_screenWidth.
  replace (640 / 640) with 1 by lra. rewrite rnd_1.
  unfold lerp, fadd, fmul, fsub.
  replace (1 - 1) with 0 by lra. rewrite rnd_0.
  replace (-1 * 0) with 0 by lra. rewrite rnd_0.
  replace (1 * 1) with 1 by lra. rewrite rnd_1.
  replace (0 + 1) with 1 by lra. apply rnd_1.
Qed.

End Phase.

(** C4, as the code has it. At tick counter 0 the phase is 0, the cosine
    is 1, the horizontal position is 640, the screen width, and the pan
    position is exactly 1, rightmost. *)
Theorem panning_at_tick_0 {F : Float64} :
  phaseAt 0 = 0%R /\ Cos (phaseAt 0) = 1%R /\
  xposAt 0 = IZR screenWidth /\ panningAt 0 = 1%R.
Proof.
  split; [apply phaseAt_0|]. split; [rewrite phaseAt_0; apply Cos_0|].
  split; [apply xposAt_0 | apply panningAt_0].
Qed.

Lemma panning_at_tick_0_witness :
  panningAt (F := exact) 0 = 1%R /\ xposAt (F := exact) 0 = 640%R.
Proof.
  destruct (panning_at_tick_0 (F := exact)) as (_ & _ & Hx & Hp).
  split; [exact Hp | exact Hx].
Defined.

(** Against C4 as stated: at tick counter 0 the pan position is not -1. *)
Lemma panning_at_tick_0_not_leftmost : panningAt (F := exact) 0 <> (-1)%R.
Proof. rewrite panningAt_0. lra. Qed.

(** In exact arithmetic the pan position is the cosine of the phase. *)
Lemma exact_panningAt (c : Z) :
  panningAt (F := exact) c = cos (IZR c * (2 * PI / 600)).
Proof.
  unfold panningAt, lerp, xposAt, phaseAt, fadd, fsub, fmul, fdiv, float64,
    half, step, tenth, screenWidth.
  cbn [rnd Cos Pi exact].
  replace (IZR c * (1 / 60 * 2 * PI) * (1 / 10))%R
    with (IZR c * (2 * PI / 600))%R by lra.
  lra.
Qed.

(** Leftmost is reached half a period in. *)
Lemma exact_panningAt_300 : panningAt (F := exact) 300 = (-1)%R.
Proof.
  rewrite exact_panningAt.
  replace (300 * (2 * PI / 600))%R with PI by lra. apply cos_PI.
Qed.

Lemma cos_phase_period (t : Z) :
  cos (IZR (t + 600) * (2 * PI / 600)) = cos (IZR t * (2 * PI / 600)).
Proof.
  rewrite plus_IZR.
  replace ((IZR t + 600) * (2 * PI / 600))%R
    with (IZR t * (2 * PI / 600) + 2 * PI)%R by lra.
  rewrite cos_plus, cos_2PI, sin_2PI. lra.
Qed.

Lemma exact_panningAt_period (t : Z) :
  panningAt (F := exact) (t + 600) = panningAt (F := exact) t.
Proof. rewrite !exact_panningAt. apply cos_phase_period. Qed.

Section Accuracy.
Context {F : Float64} {A : Float64Accuracy F}.
Local Open Scope R_scope.

Lemma Rabs_le_inv (x b : R) : Rabs x <= b -> - b <= x <= b.
Proof. unfold Rabs. destruct (Rcase_abs x); lra. Qed.

Lemma tiny_le : / 2 ^ 1074 <= / 2 ^ 60.
Proof.
  apply Rinv_le_contravar; [apply pow_lt; lra|].
  apply Rle_pow; [lra | lia].
Qed.

(** A rounding of a value of magnitude at most [M]. *)
Lemma rnd_near (M x : R) :
  - M <= x <= M ->
  - (M / 2 ^ 53 + / 2 ^ 60) <= rnd x - x <= M / 2 ^ 53 + / 2 ^ 60.
Proof.
  intros Hx. apply Rabs_le_inv.
  eapply Rle_trans; [apply rnd_error|].
  pose proof tiny_le.
  assert (Rabs x <= M) by (apply Rabs_le; lra).
  assert (Rabs x / 2 ^ 53 <= M / 2 ^ 53).
  { apply Rmult_le_compat_r; [|assumption].
    left. apply Rinv_0_lt_compat, pow_lt. lra. }
  lra.
Qed.

Lemma prod_near (x d X e : R) :
  - X <= x <= X -> - e <= d <= e -> - (X * e) <= x * d <= X * e.
Proof. intros Hx Hd. nra. Qed.

Lemma sin_abs_le (x : R) : Rabs (sin x) <= Rabs x.
Proof.
  assert (Hpos : forall y, 0 < y -> Rabs (sin y) <= y).
  { intros y Hy. apply Rabs_le. split.
    - destruct (Rle_dec 1 y) as [H1|H1].
      + pose proof (SIN_bound y). lra.
      + assert (0 < sin y); [|lra].
        apply sin_gt_0; [assumption|]. pose proof PI2_1. lra.
    - left. apply sin_lt_x. assumption. }
  destruct (Rtotal_order x 0) as [Hx|[->|Hx]].
  - rewrite <- (Rabs_Ropp (sin x)), <- sin_neg, <- (Rabs_Ropp x).
    rewrite (Rabs_right (- x)) by lra. apply Hpos. lra.
  - rewrite sin_0, Rabs_R0. lra.
  - rewrite (Rabs_right x) by lra. apply Hpos. assumption.
Qed.

Lemma cos_near (p q e : R) :
  - e <= p - q <= e -> - e <= cos p - cos q <= e.
Proof.
  intros Hpq. apply Rabs_le_inv. rewrite form2, !Rabs_mult.
  pose proof (sin_abs_le ((p - q) / 2)) as H1.
  assert (H2 : Rabs (sin ((p + q) / 2)) <= 1).
  { apply Rabs_le. apply SIN_bound. }
  assert (H3 : Rabs ((p - q) / 2) <= e / 2).
  { apply Rabs_le. lra. }
  rewrite (Rabs_left (-2)) by lra.
  pose proof (Rabs_pos (sin ((p - q) / 2))).
  pose proof (Rabs_pos (sin ((p + q) / 2))).
  nra.
Qed.

(** The phase, against the exact angle, for a year of ticks. *)
Lemma phaseAt_near (c : Z) :
  (Z.abs c <= 2 ^ 31)%Z ->
  - / 2 ^ 24 <= phaseAt c - IZR c * (2 * PI / 600) <= / 2 ^ 24.
Proof.
  intros Hc.
  assert (Hx : - 2 ^ 31 <= IZR c <= 2 ^ 31).
  { assert (-2147483648 <= IZR c <= 2147483648); [|lra].
    split; apply IZR_le; lia. }
  unfold phaseAt, fmul, float64, step, tenth.
  rewrite (rnd_IZR c) by lia.
  set (x := IZR c) in *.
  pose proof (Rabs_le_inv _ _ Pi_error) as HPi.
  pose proof PI_RGT_0 as HPI0. pose proof PI_4 as HPI4.
  pose proof (rnd_near (1 / 6) (1 / 60 * 2 * Pi)) as Hs.
  set (s := rnd (1 / 60 * 2 * Pi)) in *.
  assert (Hs' : - (/ 2 ^ 55) <= s - PI / 30 <= / 2 ^ 55) by lra.
  assert (Hsb : - (1 / 7) <= s <= 1 / 7) by lra.
  pose proof (prod_near x (s - PI / 30) (2 ^ 31) (/ 2 ^ 55) Hx Hs') as Hxs.
  pose proof (prod_near x s (2 ^ 31) (1 / 7) Hx Hsb) as Hxsb.
  pose proof (rnd_near (2 ^ 29) (x * s)) as Ha1.
  set (a1 := rnd (x * s)) in *.
  assert (Ha1' : - (/ 2 ^ 22) <= a1 - x * (PI / 30) <= / 2 ^ 22) by lra.
  assert (Ha1b : - 2 ^ 29 <= a1 <= 2 ^ 29) by lra.
  pose proof (rnd_near (1 / 8) (1 / 10)) as Ht.
  set (t := rnd (1 / 10)) in *.
  assert (Ht' : - (/ 2 ^ 55) <= t - 1 / 10 <= / 2 ^ 55) by lra.
  assert (Htb : - (1 / 8) <= t <= 1 / 8) by lra.
  pose proof (prod_near a1 (t - 1 / 10) (2 ^ 29) (/ 2 ^ 55) Ha1b Ht') as Hat.
  pose proof (prod_near a1 t (2 ^ 29) (1 / 8) Ha1b Htb) as Hatb.
  pose proof (rnd_near (2 ^ 26) (a1 * t)) as Ha2.
  lra.
Qed.

(** The pan position, against the cosine of the exact angle. *)
Lemma panningAt_near (c : Z) :
  (Z.abs c <= 2 ^ 31)%Z ->
  - (cos_err + / 2 ^ 23)
  <= panningAt c - cos (IZR c * (2 * PI / 600))
  <= cos_err + / 2 ^ 23.
Proof.
  intros Hc.
  pose proof (cos_near _ _ _ (phaseAt_near c Hc)) as Hcos.
  pose proof (Rabs_le_inv _ _ (Cos_error (phaseAt c))) as HCos.
  pose proof (Cos_range (phaseAt c)) as HC.
  unfold panningAt, xposAt, lerp, fadd, fsub, fmul, fdiv.
  rewrite half_320, float64_screenWidth.
  set (C := Cos (phaseAt c)) in *.
  pose proof (rnd_near 320 (C * 320)) as Hm.
  set (m := rnd (C * 320)) in *.
  pose proof (rnd_near 641 (320 + m)) as Hxp.
  set (xp := rnd (320 + m)) in *.
  pose proof (rnd_near 2 (xp / 640)) as Ht.
  set (t := rnd (xp / 640)) in *.
  pose proof (rnd_near 3 (1 - t)) as Hw1.
  set (w1 := rnd (1 - t)) in *.
  pose proof (rnd_near 4 (-1 * w1)) as Hw2.
  set (w2 := rnd (-1 * w1)) in *.
  pose proof (rnd_near 3 (1 * t)) as Hw3.
  set (w3 := rnd (1 * t)) in *.
  pose proof (rnd_near 8 (w2 + w3)) as Hp.
  lra.
Qed.

End Accuracy.

Section Drift.
Context {F : Float64} {A : Float64Accuracy F}.
Local Open Scope R_scope.

(** The phase against the exact angle, for every counter: the error
    grows with the counter. *)
Lemma phaseAt_drift (c : Z) :
  - (Rabs (IZR c) / 2 ^ 56 + / 2 ^ 54)
  <= phaseAt c - IZR c * (2 * PI / 600)
  <= Rabs (IZR c) / 2 ^ 56 + / 2 ^ 54.
Proof.
  unfold phaseAt, fmul, float64, step, tenth.
  set (x := IZR c).
  pose proof (Rabs_pos x) as HX0.
  pose proof (Rabs_le_inv x (Rabs x) (Rle_refl _)) as Hx.
  set (X := Rabs x) in *.
  pose proof (rnd_near X x Hx) as Ha0.
  set (a0 := rnd x) in *.
  pose proof (Rabs_le_inv _ _ Pi_error) as HPi.
  pose proof PI_RGT_0 as HPI0. pose proof PI_4 as HPI4.
  pose proof (rnd_near (1 / 6) (1 / 60 * 2 * Pi)) as Hs.
  set (s := rnd (1 / 60 * 2 * Pi)) in *.
  assert (Hs' : - (/ 6 / 2 ^ 53 + 2 * / 2 ^ 60) <= s - PI / 30
                <= / 6 / 2 ^ 53 + 2 * / 2 ^ 60) by lra.
  assert (Hsb : - (1 / 7) <= s <= 1 / 7) by lra.
  assert (Ha0b : - (X * (1 + / 2 ^ 53) + / 2 ^ 60) <= a0
                 <= X * (1 + / 2 ^ 53) + / 2 ^ 60) by lra.
  pose proof (prod_near a0 (s - PI / 30) _ _ Ha0b Hs') as H1.
  assert (Hd0 : - (X / 2 ^ 53 + / 2 ^ 60) <= a0 - x <= X / 2 ^ 53 + / 2 ^ 60)
    by lra.
  pose proof (prod_near PI (a0 - x) 4 _ ltac:(lra) Hd0) as H2.
  pose proof (prod_near a0 s _ _ Ha0b Hsb) as H3.
  pose proof (rnd_near _ (a0 * s) H3) as Ha1.
  set (a1 := rnd (a0 * s)) in *.
  assert (HE1 : - (X / 2 ^ 54 + / 2 ^ 55) <= a1 - x * (PI / 30)
                <= X / 2 ^ 54 + / 2 ^ 55) by lra.
  pose proof (rnd_near (1 / 10) (1 / 10)) as Ht.
  set (t := rnd (1 / 10)) in *.
  assert (Ht' : - (/ 10 / 2 ^ 53 + / 2 ^ 60) <= t - 1 / 10
                <= / 10 / 2 ^ 53 + / 2 ^ 60) by lra.
  assert (Htb : - (1 / 8) <= t <= 1 / 8) by lra.
  assert (Ha1b : - (X / 6 + 1) <= a1 <= X / 6 + 1) by lra.
  pose proof (prod_near a1 (t - 1 / 10) _ _ Ha1b Ht') as H4.
  pose proof (prod_near a1 t _ _ Ha1b Htb) as H5.
  pose proof (rnd_near _ (a1 * t) H5) as Ha2.
  lra.
Qed.

(** The pan position against the cosine of the exact angle, for every
    counter. *)
Lemma panningAt_drift (c : Z) :
  - (cos_err + Rabs (IZR c) / 2 ^ 56 + / 2 ^ 48)
  <= panningAt c - cos (IZR c * (2 * PI / 600))
  <= cos_err + Rabs (IZR c) / 2 ^ 56 + / 2 ^ 48.
Proof.
  pose proof (cos_near _ _ _ (phaseAt_drift c)) as Hcos.
  pose proof (Rabs_le_inv _ _ (Cos_error (phaseAt c))) as HCos.
  pose proof (Cos_range (phaseAt c)) as HC.
  pose proof (Rabs_pos (IZR c)) as HX0.
  unfold panningAt, xposAt, lerp, fadd, fsub, fmul, fdiv.
  rewrite half_320, float64_screenWidth.
  set (C := Cos (phaseAt c)) in *.
  pose proof (rnd_near 320 (C * 320)) as Hm.
  set (m := rnd (C * 320)) in *.
  pose proof (rnd_near 641 (320 + m)) as Hxp.
  set (xp := rnd (320 + m)) in *.
  pose proof (rnd_near 2 (xp / 640)) as Ht.
  set (t := rnd (xp / 640)) in *.
  pose proof (rnd_near 3 (1 - t)) as Hw1.
  set (w1 := rnd (1 - t)) in *.
  pose proof (rnd_near 4 (-1 * w1)) as Hw2.
  set (w2 := rnd (-1 * w1)) in *.
  pose proof (rnd_near 3 (1 * t)) as Hw3.
  set (w3 := rnd (1 * t)) in *.
  pose proof (rnd_near 8 (w2 + w3)) as Hp.
  lra.
Qed.

Lemma Rabs_IZR_plus (t k : Z) :
  (0 <= k)%Z -> Rabs (IZR (t + k)) <= Rabs (IZR t) + IZR k.
Proof.
  intros Hk. rewrite plus_IZR.
  eapply Rle_trans; [apply Rabs_triang|].
  rewrite (Rabs_right (IZR k)); [lra|].
  apply Rle_ge. apply (IZR_le 0). exact Hk.
Qed.

(** A period later, for every counter. *)
Lemma panningAt_drift_period (t : Z) :
  Rabs (panningAt (t + 600) - panningAt t)
  <= 2 * cos_err + (Rabs (IZR t) + 300) / 2 ^ 55 + / 2 ^ 47.
Proof.
  pose proof (panningAt_drift t) as H0.
  pose proof (panningAt_drift (t + 600)) as H1.
  rewrite cos_phase_period in H1.
  pose proof (Rabs_IZR_plus t 600 ltac:(lia)) as Hb.
  apply Rabs_le. lra.
Qed.

(** Half a period later, for every counter. *)
Lemma panningAt_drift_half_period (t : Z) :
  Rabs (panningAt (t + 300) + panningAt t)
  <= 2 * cos_err + (Rabs (IZR t) + 150) / 2 ^ 55 + / 2 ^ 47.
Proof.
  pose proof (panningAt_drift t) as H0.
  pose proof (panningAt_drift (t + 300)) as H1.
  assert (Hneg : cos (IZR (t + 300) * (2 * PI / 600))
                 = - cos (IZR t * (2 * PI / 600))).
  { rewrite plus_IZR.
    replace ((IZR t + 300) * (2 * PI / 600))
      with (IZR t * (2 * PI / 600) + PI) by lra.
    apply neg_cos. }
  rewrite Hneg in H1.
  pose proof (Rabs_IZR_plus t 300 ltac:(lia)) as Hb.
  apply Rabs_le. lra.
Qed.

Lemma Rmin_near (x y e : R) :
  - e <= x - y <= e -> - e <= Rmin x 1 - Rmin y 1 <= e.
Proof. intros H. unfold Rmin. repeat destruct (Rle_dec _ _); lra. Qed.

(** The gains at two pan positions that are nearly opposite. *)
Lemma volumes_near_mirror (p q e : R) :
  - 1 <= p <= 1 -> - 1 <= q <= 1 -> - e <= q + p <= e ->
  Rabs (leftVolume q - rightVolume p) <= e + / 2 ^ 50 /\
  Rabs (rightVolume q - leftVolume p) <= e + / 2 ^ 50.
Proof.
  intros Hp Hq He. unfold leftVolume, rightVolume, Min, fadd, fmul.
  pose proof (rnd_near 1 (q * -1)) as Hq1.
  pose proof (rnd_near 1 (p * -1)) as Hp1.
  pose proof (rnd_near 3 (rnd (q * -1) + 1)) as Hq2.
  pose proof (rnd_near 3 (rnd (p * -1) + 1)) as Hp2.
  pose proof (rnd_near 2 (p + 1)) as Hp3.
  pose proof (rnd_near 2 (q + 1)) as Hq3.
  split; apply Rabs_le, Rmin_near; lra.
Qed.

Lemma wrap_range (z : Z) : (- 2 ^ 63 <= wrap z < 2 ^ 63)%Z.
Proof.
  unfold wrap.
  change (2 ^ 63)%Z with 9223372036854775808%Z.
  change (2 ^ 64)%Z with 18446744073709551616%Z.
  Z.div_mod_to_equations. lia.
Qed.

Lemma wrap_add (z m : Z) : wrap (wrap z + m) = wrap (z + m).
Proof.
  unfold wrap.
  change (2 ^ 63)%Z with 9223372036854775808%Z.
  change (2 ^ 64)%Z with 18446744073709551616%Z.
  Z.div_mod_to_equations. lia.
Qed.

(** Between the states that [k] and [k + 600] ticks reach, whether or
    not the counter wraps in between. *)
Lemma ticks_drift_period (k : nat) (w : World)
  (g1 : Game) (w1 : World) (g2 : Game) (w2 : World) :
  (0 < k)%nat ->
  ticks k w = Returned (g1, w1) ->
  ticks (k + 600) w = Returned (g2, w2) ->
  Rabs (panning g2 - panning g1)
  <= 2 * cos_err + (Rabs (IZR (count g1)) + 300) / 2 ^ 55 + / 2 ^ 47.
Proof.
  intros Hk H1 H2.
  apply ticks_Returned in H1 as [Hc1 Hs1].
  apply ticks_Returned in H2 as [Hc2 Hs2].
  destruct k as [|k]; [lia|]. cbn [Nat.add] in Hs2.
  destruct Hs1 as (_ & Hp1 & _). destruct Hs2 as (_ & Hp2 & _).
  assert (Hc : count g2 = wrap (count g1 + 600)).
  { rewrite Hc2, Hc1, wrap_add. f_equal. lia. }
  pose proof (wrap_range (Z.of_nat (S k))) as Hr. rewrite <- Hc1 in Hr.
  destruct (decide (count g1 + 600 < 2 ^ 63)%Z) as [Hno|Hwrap].
  - rewrite wrap_small in Hc by lia.
    rewrite Hp1, Hp2, Hc. apply panningAt_drift_period.
  - pose proof (panningAt_range (count g1)) as Hb1.
    pose proof (panningAt_range (count g2)) as Hb2.
    rewrite <- Hp1 in Hb1. rewrite <- Hp2 in Hb2.
    assert (Hbig : 9223372036854775208 <= IZR (count g1)).
    { apply IZR_le. lia. }
    rewrite (Rabs_right (IZR (count g1))) by lra.
    pose proof (Rabs_le_inv _ _ (Rle_trans _ _ _ (Cos_error 0) (Rle_refl _)))
      as Hce.
    assert (0 <= cos_err) by lra.
    apply Rabs_le. lra.
Qed.

End Drift.

Lemma panningAt_near_period {F : Float64} {A : Float64Accuracy F} (t : Z) :
  Z.abs t + 600 <= 2 ^ 31 ->
  (Rabs (panningAt (t + 600) - panningAt t) <= 2 * cos_err + / 2 ^ 22)%R.
Proof.
  intros Ht.
  pose proof (panningAt_near t ltac:(lia)) as H0.
  pose proof (panningAt_near (t + 600) ltac:(lia)) as H1.
  rewrite cos_phase_period in H1.
  apply Rabs_le. lra.
Qed.



(** C8. Initialization is lazy and idempotent.  A new game has no
    players; the first [Update] constructs the two of them, and one
    context and two decodes with them; [initAudioIfNeeded] on a game whose
    left player exists returns the game and the world as they are; over
    any number of ticks exactly two players are ever constructed, and one
    more [Update] constructs nothing. *)
Theorem initAudio_lazy_idempotent {F : Float64} :
  (playerLeft newGame = None /\ playerRight newGame = None) /\
  (forall w g w', Update newGame w = Returned (g, w') ->
     is_Some (playerLeft g) /\ is_Some (playerRight g) /\
     handles w' = (handles w + 2)%nat /\ decodes w' = (decodes w + 2)%nat /\
     contexts w' = (contexts w + 1)%nat) /\
  (forall g w, is_Some (playerLeft g) ->
     initAudioIfNeeded g w = Returned (g, w)) /\
  (forall k w g w', ticks (S k) w = Returned (g, w') ->
     handles w' = (handles w + 2)%nat /\
     initAudioIfNeeded g w' = Returned (g, w') /\
     forall g'' w'', Update g w' = Returned (g'', w'') -> w'' = w') /\
  (forall k w, sound w -> exists g w', ticks k w = Returned (g, w')).
Proof.
  split; [split; reflexivity|]. split; [|split; [|split]].
  - intros w g w' HU.
    apply Update_fresh in HU; [|reflexivity].
    destruct HU as ((pl & pr & Hpl & Hpr & _) & _ & _ & Hh & Hd & Hc & _).
    rewrite Hpl, Hpr. cbn in Hc. eauto.
  - apply initAudioIfNeeded_done.
  - intros k w g w' Hk.
    apply ticks_Returned in Hk as (_ & Hready & _ & _ & Hh & _).
    split; [exact Hh|]. split.
    + apply initAudioIfNeeded_done.
      destruct Hready as (pl & _ & -> & _). eauto.
    + intros g'' w'' HU. apply Update_ready in HU; tauto.
  - intros k w. apply ticks_returns.
Qed.

Lemma initAudio_lazy_idempotent_witness :
  exists g w' g'' w'',
    ticks (F := exact) 1 quiet = Returned (g, w') /\
    handles w' = 2%nat /\
    initAudioIfNeeded g w' = Returned (g, w') /\
    Update (F := exact) g w' = Returned (g'', w'') /\
    handles w'' = 2%nat.
Proof.
  destruct (initAudio_lazy_idempotent (F := exact))
    as (_ & Hfirst & Hdone & Hticks & Hret).
  destruct (Hret 1%nat quiet quiet_sound) as (g & w' & H1).
  pose proof (ticks_Returned _ _ _ _ H1) as (_ & Hready & _).
  destruct (Update_returns g w' (or_intror Hready)) as (g2 & w2 & H2).
  exists g, w', g2, w2.
  destruct (Hticks 0%nat quiet g w' H1) as (Hh & Hinit & Hsame).
  split; [exact H1|]. split; [exact Hh|]. split; [exact Hinit|].
  split; [exact H2|].
  rewrite (Hsame g2 w2 H2). exact Hh.
Defined.

(** * Further properties *)

(** ** The filter: when it panics, how much it writes *)

Lemma div8_pos (a : Z) : 8 <= a -> 1 <= a / 8.
Proof. intros Ha. Z.div_mod_to_equations. lia. Qed.

Lemma div8_nonpos (a : Z) : a < 8 -> a / 8 <= 0.
Proof. intros Ha. Z.div_mod_to_equations. lia. Qed.

Lemma div8_step (a : Z) : 8 <= a -> a / 8 = 1 + (a - 8) / 8.
Proof. intros Ha. Z.div_mod_to_equations. lia. Qed.

Lemma zeroFrames_stores_length isLeft n i p q :
  zeroFrames isLeft n i p = Returned q ->
  length (stores q) = (length (stores p) + 4 * Z.to_nat ((n - i) / 8))%nat.
Proof.
  revert q. funelim (zeroFrames isLeft n i p); intros q Hq.
  all: repeat match goal with E : decide _ = _ |- _ => clear E end.
  - injection Hq as <-.
    pose proof (div8_nonpos (n - i)). lia.
  - match goal with
    | IH : forall q, _ -> _ |- _ => rewrite (IH _ Hq)
    end.
    match goal with
    | E : silence _ _ _ = Returned _ |- _ =>
      apply silence_Returned in E; destruct E as (_ & _ & _ & Hst & _)
    end.
    rewrite Hst, length_app. cbn [length].
    rewrite (div8_step (n - i)) by lia.
    replace (n - i - 8) with (n - (i + 8)) by lia.
    assert (0 <= (n - (i + 8)) / 8) by (apply Z.div_pos; lia).
    lia.
  - discriminate.
  - discriminate.
Qed.

(** The loop returns when its last complete frame's silenced bytes lie
    inside the slice. *)
Lemma zeroFrames_fits isLeft n i p :
  0 <= i ->
  (i + 8 <= n ->
   i + 8 * ((n - i) / 8) + offset isLeft < Z.of_nat (length (data p)) + 5) ->
  exists q, zeroFrames isLeft n i p = Returned q.
Proof.
  funelim (zeroFrames isLeft n i p); intros Hi Hfit.
  all: repeat match goal with E : decide _ = _ |- _ => clear E end.
  - eauto.
  - match goal with
    | IH : _ -> _ -> exists q, _ |- _ => apply IH; [lia|]
    end.
    match goal with
    | E : silence _ _ _ = Returned _ |- _ =>
      apply silence_Returned in E; destruct E as (_ & _ & Hlen & _)
    end.
    rewrite Hlen. intros Hmore. specialize (Hfit l).
    pose proof (div8_step (n - i) ltac:(lia)) as Hstep.
    replace (n - i - 8) with (n - (i + 8)) in Hstep by lia.
    lia.
  - exfalso. specialize (Hfit l).
    pose proof (div8_pos (n - i) ltac:(lia)).
    match goal with
    | E : silence ?b _ _ = _ |- _ =>
      destruct (silence_in_range b i p) as [q Hq];
        [unfold offset in *; destruct b; lia ..|congruence]
    end.
  - exfalso. eapply silence_not_Fatal. eassumption.
Qed.

Lemma zeroFrames_fits_inv isLeft n i p q :
  0 <= i -> i + 8 <= n ->
  zeroFrames isLeft n i p = Returned q ->
  i + 8 * ((n - i) / 8) + offset isLeft < Z.of_nat (length (data p)) + 5.
Proof.
  intros Hi Hn Hq.
  apply zeroFrames_Returned in Hq as (Hlen & Hdata & _).
  pose proof (div8_pos (n - i) ltac:(lia)) as Hk.
  set (x := i + 8 * ((n - i) / 8) - 8 + offset isLeft + 3).
  assert (Hx : 0 <= x) by (unfold x, offset; destruct isLeft; lia).
  specialize (Hdata (Z.to_nat x)). rewrite Z2Nat.id in Hdata by exact Hx.
  case_decide as Hs.
  - apply lookup_lt_Some in Hdata. rewrite Hlen in Hdata. lia.
  - exfalso. apply Hs. unfold inFrames, unwanted, x, offset.
    destruct isLeft.
    + split; [lia|].
      replace (i + 8 * ((n - i) / 8) - 8 + 4 + 3 - i)
        with (7 + ((n - i) / 8 - 1) * 8) by lia.
      rewrite Z.mod_add by lia. change (7 mod 8) with 7. lia.
    + split; [lia|].
      replace (i + 8 * ((n - i) / 8) - 8 + 0 + 3 - i)
        with (3 + ((n - i) / 8 - 1) * 8) by lia.
      rewrite Z.mod_add by lia. change (3 mod 8) with 3. lia.
Qed.

(** X1. [Read] panics exactly when the underlying stream reports at
    least one complete frame and the silenced bytes of the last complete
    frame do not all lie inside the slice; otherwise it returns. *)
Theorem Read_panics_exactly {S : Type} `{ReadSeeker S}
  (s : SingleChannelStream S) (p : list byte) :
  let n := rr_n (rs_Read (src s) p) in
  (Read s p = Panicked <->
   8 <= n /\ Z.of_nat (length p) + 5 <= 8 * (n / 8) + offset (isLeft s)) /\
  ((exists out, Read s p = Returned out) <->
   (8 <= n -> 8 * (n / 8) + offset (isLeft s) < Z.of_nat (length p) + 5)).
Proof.
  cbn zeta. set (n := rr_n (rs_Read (src s) p)).
  assert (Hret : (exists out, Read s p = Returned out) <->
            (8 <= n -> 8 * (n / 8) + offset (isLeft s) < Z.of_nat (length p) + 5)).
  { split.
    - intros [out Hout] Hn. unfold Read in Hout. fold n in Hout.
      destruct (zeroFrames _ _ _ _) as [q| |] eqn:E; cbn in Hout; try discriminate.
      apply zeroFrames_fits_inv in E; [|lia|lia].
      cbn [data] in E. rewrite rs_Read_length, Z.add_0_l, Z.sub_0_r in E.
      exact E.
    - intros Hfit. unfold Read. fold n.
      destruct (zeroFrames_fits (isLeft s) n 0
                  (Buf (rr_data (rs_Read (src s) p)) [])) as [q Hq]; [lia| |].
      + cbn [data]. rewrite rs_Read_length, Z.add_0_l, Z.sub_0_r.
        intros Hn. apply Hfit. lia.
      + rewrite Hq. cbn. eauto. }
  split; [|exact Hret].
  split.
  - intros Hp.
    destruct (decide (8 <= n)) as [Hn|Hn].
    + split; [exact Hn|].
      destruct (decide (8 * (n / 8) + offset (isLeft s) < Z.of_nat (length p) + 5))
        as [Hfit|Hfit]; [|lia].
      destruct (proj2 Hret (fun _ => Hfit)) as [out Hout]. congruence.
    + destruct (proj2 Hret) as [out Hout]; [intros; lia|congruence].
  - intros [Hn Hbad].
    destruct (Read s p) as [out| |] eqn:E; [|reflexivity|].
    + assert (Hfit := proj1 Hret (ex_intro _ out eq_refl) Hn). lia.
    + exfalso. revert E. unfold Read.
      destruct (zeroFrames _ _ _ _) eqn:E'; cbn; try discriminate.
      intros _. exact (zeroFrames_not_Fatal _ _ _ _ E').
Qed.

(** X2. A returning [Read] has performed exactly four stores for each
    complete frame of the returned range, and none when fewer than eight
    bytes were returned, in which case the slice is as the underlying
    stream left it. *)
Theorem Read_stores_four_per_frame {S : Type} `{ReadSeeker S}
  (s : SingleChannelStream S) (p : list byte) (out : filtered S) :
  Read s p = Returned out ->
  length (stores (f_buf out)) = (4 * Z.to_nat (f_n out / 8))%nat /\
  (f_n out < 8 ->
   stores (f_buf out) = [] /\
   data (f_buf out) = rr_data (rs_Read (src s) p)).
Proof.
  intros Hout.
  pose proof (Read_Returned s p out Hout) as (_ & Hn & _ & _ & Hdata & _).
  unfold Read in Hout.
  destruct (zeroFrames _ _ _ _) as [q| |] eqn:E; cbn in Hout; try discriminate.
  injection Hout as <-. cbn [f_buf f_n] in *.
  pose proof (zeroFrames_stores_length _ _ _ _ _ E) as Hlen.
  cbn [stores length] in Hlen. rewrite Z.sub_0_r in Hlen.
  split; [lia|]. intros Hsmall.
  pose proof (div8_nonpos _ Hsmall) as Hz.
  split.
  - destruct (stores q); [reflexivity|]. cbn [length] in Hlen. lia.
  - apply list_eq. intros j. rewrite Hdata.
    case_decide as Hs; [|reflexivity].
    destruct Hs as [Hs _]. lia.
Qed.

Lemma Read_panics_exactly_witness :
  Read (NewSingleChannelStream (Liar 16) true) (replicate 10 Byte.x00)
  = Panicked /\
  exists out,
    Read (NewSingleChannelStream (Liar 16) false) (replicate 12 Byte.x00)
    = Returned out.
Proof.
  split.
  - apply (Read_panics_exactly
             (NewSingleChannelStream (Liar 16) true) (replicate 10 Byte.x00)).
    vm_compute. split; discriminate.
  - apply (Read_panics_exactly
             (NewSingleChannelStream (Liar 16) false) (replicate 12 Byte.x00)).
    intros _. vm_compute. reflexivity.
Defined.

Lemma Read_stores_four_per_frame_witness :
  exists out,
    Read (NewSingleChannelStream (MemReader (bytes_of (seq 1 5)) 0) true)
         (replicate 16 Byte.x00) = Returned out /\
    stores (f_buf out) = [] /\
    data (f_buf out) = bytes_of (seq 1 5) ++ replicate 11 Byte.x00.
Proof.
  destruct (Read_returns
              (NewSingleChannelStream (MemReader (bytes_of (seq 1 5)) 0) true)
              (replicate 16 Byte.x00)) as [out Hout]; [vm_compute; discriminate|].
  exists out. split; [exact Hout|].
  destruct (Read_stores_four_per_frame _ _ out Hout) as [_ Hsmall].
  assert (Hn : f_n out = 5).
  { vm_compute in Hout. injection Hout as <-. reflexivity. }
  destruct Hsmall as [Hst Hdata]; [rewrite Hn; vm_compute; reflexivity|].
  split; [exact Hst|]. rewrite Hdata. reflexivity.
Defined.

(** ** The filter: two filters in a row *)

(** X3. Feeding the output of one filter to a second one: a second filter
    for the same channel changes nothing, a second filter for the other
    channel leaves every byte of every complete frame zero, and either way
    the bytes past the last complete frame are still those of the first
    underlying read. *)
Theorem Read_twice {S1 S2 : Type} `{ReadSeeker S1} `{ReadSeeker S2}
  (s1 : SingleChannelStream S1) (p1 : list byte) (out1 : filtered S1)
  (s2 : SingleChannelStream S2) (p2 : list byte) (out2 : filtered S2) :
  Read s1 p1 = Returned out1 ->
  rr_data (rs_Read (src s2) p2) = data (f_buf out1) ->
  rr_n (rs_Read (src s2) p2) = f_n out1 ->
  Read s2 p2 = Returned out2 ->
  (isLeft s2 = isLeft s1 -> data (f_buf out2) = data (f_buf out1)) /\
  (isLeft s2 <> isLeft s1 ->
   forall j : nat, Z.of_nat j < 8 * (f_n out1 / 8) ->
     data (f_buf out2) !! j = Some Byte.x00) /\
  (forall j : nat, 8 * (f_n out1 / 8) <= Z.of_nat j ->
     data (f_buf out2) !! j = rr_data (rs_Read (src s1) p1) !! j).
Proof.
  intros Hout1 Hd Hn Hout2.
  destruct (Read_Returned s1 p1 out1 Hout1) as (_ & _ & _ & _ & Hdata1 & _).
  destruct (Read_Returned s2 p2 out2 Hout2) as (_ & Hn2 & _ & _ & Hdata2 & _).
  rewrite Hn in Hn2. rewrite Hn2, Hd in Hdata2.
  split; [|split].
  - intros Hsame. apply list_eq. intros j.
    rewrite Hdata2, Hsame, Hdata1.
    repeat case_decide; try reflexivity; contradiction.
  - intros Hother j Hj. rewrite Hdata2, Hdata1.
    destruct (silenced_one_of (f_n out1) (Z.of_nat j)) as [[Hy Hno]|[Hy Hno]];
      [lia| |].
    all: destruct (isLeft s1), (isLeft s2); try contradiction.
    all: repeat case_decide; try reflexivity; contradiction.
  - intros j Hj. rewrite Hdata2, Hdata1.
    repeat case_decide; try reflexivity.
    all: match goal with
         | Hs : silenced _ _ _ |- _ => destruct Hs as [Hs _]; lia
         end.
Qed.

Lemma Read_twice_witness :
  exists out1 out2,
    Read (NewSingleChannelStream (MemReader sixteen 0) true)
         (replicate 16 Byte.x00) = Returned out1 /\
    Read (NewSingleChannelStream (MemReader (data (f_buf out1)) 0) false)
         (replicate 16 Byte.x00) = Returned out2 /\
    data (f_buf out2) = replicate 16 Byte.x00.
Proof.
  destruct (Read_returns (NewSingleChannelStream (MemReader sixteen 0) true)
              (replicate 16 Byte.x00)) as [out1 Hout1]; [vm_compute; discriminate|].
  assert (Hv : data (f_buf out1)
               = bytes_of [1; 2; 3; 4; 0; 0; 0; 0; 9; 10; 11; 12; 0; 0; 0; 0]%nat
               /\ f_n out1 = 16).
  { vm_compute in Hout1. injection Hout1 as <-. split; reflexivity. }
  destruct Hv as [Hv Hn1].
  destruct (Read_returns
              (NewSingleChannelStream (MemReader (data (f_buf out1)) 0) false)
              (replicate 16 Byte.x00)) as [out2 Hout2].
  { rewrite Hv. vm_compute. discriminate. }
  exists out1, out2. split; [exact Hout1|]. split; [exact Hout2|].
  destruct (Read_twice _ _ out1
              (NewSingleChannelStream (MemReader (data (f_buf out1)) 0) false)
              (replicate 16 Byte.x00) out2 Hout1) as (_ & Hzero & _);
    [rewrite Hv; reflexivity | rewrite Hv, Hn1; reflexivity | exact Hout2 |].
  apply list_eq. intros j.
  destruct (decide (j < 16)%nat) as [Hj|Hj].
  - rewrite Hzero;
      [| cbn; discriminate | rewrite Hn1; change (8 * (16 / 8)) with 16; lia].
    symmetry. apply lookup_replicate_2. exact Hj.
  - rewrite !lookup_ge_None_2; [reflexivity | rewrite length_replicate; lia |].
    destruct (Read_Returned _ _ out2 Hout2) as (_ & _ & _ & Hlen & _).
    rewrite Hlen, length_replicate. lia.
Defined.

(** ** The filter: seeking, and frames that start mid-buffer *)

Lemma channel_aligned (pos j : Z) :
  pos mod 8 = 0 -> (pos + j) mod 8 = j mod 8.
Proof. intros Hp. Z.div_mod_to_equations. lia. Qed.

Lemma channel_misaligned (isLeft : bool) (pos j : Z) :
  pos mod 8 = 4 ->
  (offset isLeft <= (pos + j) mod 8 < offset isLeft + 4 <->
   ~ offset isLeft <= j mod 8 < offset isLeft + 4).
Proof.
  unfold offset. intros Hp. destruct isLeft; Z.div_mod_to_equations; lia.
Qed.

(** X4. [Seek] hands back the position and error of the underlying
    [Seek] and keeps the channel, and the [Read] that follows silences by
    the index in the slice, not by the position in the stream.  When the
    stream delivers its content [c] from a position that is a multiple of
    8, the bytes silenced in complete frames are those of the unwanted
    channel of the stream; from a position that is 4 past a multiple of 8
    they are those of the channel that was to be kept, and the unwanted
    channel passes through. *)
Theorem Read_after_Seek {S : Type} `{ReadSeeker S}
  (s s' : SingleChannelStream S) (o whence pos : Z) (err : error)
  (c p : list byte) (out : filtered S) :
  Seek s o whence = (s', pos, err) ->
  (forall j : nat, Z.of_nat j < rr_n (rs_Read (src s') p) ->
     rr_data (rs_Read (src s') p) !! j = c !! Z.to_nat (pos + Z.of_nat j)) ->
  Read s' p = Returned out ->
  (src s', pos, err) = rs_Seek (src s) o whence /\
  isLeft s' = isLeft s /\
  forall j : nat, Z.of_nat j < 8 * (f_n out / 8) ->
    let a := pos + Z.of_nat j in
    (pos mod 8 = 0 ->
     data (f_buf out) !! j =
     if decide (offset (isLeft s) <= a mod 8 < offset (isLeft s) + 4)
     then Some Byte.x00 else c !! Z.to_nat a) /\
    (pos mod 8 = 4 ->
     data (f_buf out) !! j =
     if decide (offset (isLeft s) <= a mod 8 < offset (isLeft s) + 4)
     then c !! Z.to_nat a else Some Byte.x00).
Proof.
  intros HSeek Hc Hout.
  unfold Seek in HSeek.
  destruct (rs_Seek (src s) o whence) as [[src' pos'] err'] eqn:E.
  injection HSeek as <- <- <-. cbn [src isLeft] in *.
  split; [reflexivity|]. split; [reflexivity|].
  destruct (Read_Returned _ p out Hout) as (_ & Hn & _ & _ & Hdata & _).
  cbn [src isLeft] in Hn, Hdata.
  intros j Hj. cbn zeta.
  assert (Hjn : Z.of_nat j < rr_n (rs_Read src' p)).
  { rewrite <- Hn. pose proof (Z.mul_div_le (f_n out) 8). lia. }
  rewrite Hdata, (Hc j Hjn).
  unfold silenced. split; intros Hpos.
  - rewrite channel_aligned by exact Hpos.
    repeat case_decide; try reflexivity; exfalso; lia.
  - pose proof (channel_misaligned (isLeft s) pos' (Z.of_nat j) Hpos).
    repeat case_decide; try reflexivity; exfalso; intuition lia.
Qed.

Lemma Read_after_Seek_witness :
  exists s' out,
    Seek (NewSingleChannelStream (MemReader (bytes_of (seq 1 24)) 0) true) 4 0
    = (s', 4, None) /\
    Read s' (replicate 16 Byte.x00) = Returned out /\
    data (f_buf out) !! 0%nat = Some Byte.x05 /\
    data (f_buf out) !! 4%nat = Some Byte.x00.
Proof.
  set (s' := NewSingleChannelStream (MemReader (bytes_of (seq 1 24)) 4) true).
  destruct (Read_returns s' (replicate 16 Byte.x00)) as [out Hout];
    [vm_compute; discriminate|].
  assert (HSeek : Seek (NewSingleChannelStream
                          (MemReader (bytes_of (seq 1 24)) 0) true) 4 0
                  = (s', 4, None)) by (vm_compute; reflexivity).
  exists s', out. split; [exact HSeek|]. split; [exact Hout|].
  assert (Hn : f_n out = 16).
  { vm_compute in Hout. injection Hout as <-. reflexivity. }
  destruct (Read_after_Seek _ s' 4 0 4 None (bytes_of (seq 1 24))
              (replicate 16 Byte.x00) out HSeek) as (_ & _ & Hidx).
  - intros j Hj. change (rr_n _) with 16 in Hj.
    do 16 (destruct j as [|j]; [reflexivity|]). lia.
  - exact Hout.
  - split.
    + destruct (Hidx 0%nat) as [_ Hmis]; [rewrite Hn; vm_compute; reflexivity|].
      rewrite Hmis by reflexivity. reflexivity.
    + destruct (Hidx 4%nat) as [_ Hmis]; [rewrite Hn; vm_compute; reflexivity|].
      rewrite Hmis by reflexivity. reflexivity.
Defined.

(** ** The controller: the marker and the pan position *)

Section MoreControllerFacts.
Context {F : Float64}.
Local Open Scope R_scope.

Lemma lerp_pan_mono (t t' : R) : t <= t' -> lerp (-1) 1 t <= lerp (-1) 1 t'.
Proof.
  intros Ht. unfold lerp, fadd, fmul, fsub.
  apply rnd_le.
  assert (H1 : rnd (1 - t') <= rnd (1 - t)) by (apply rnd_le; lra).
  assert (H2 : rnd (-1 * rnd (1 - t)) <= rnd (-1 * rnd (1 - t')))
    by (apply rnd_le; lra).
  assert (H3 : rnd (1 * t) <= rnd (1 * t')) by (apply rnd_le; lra).
  lra.
Qed.

Lemma lerp_at_0 (a b : R) : rnd a = a -> lerp a b 0 = a.
Proof.
  intros Ha. unfold lerp, fadd, fmul, fsub.
  replace (1 - 0) with 1 by lra. rewrite rnd_1.
  replace (a * 1) with a by lra. rewrite Ha.
  replace (b * 0) with 0 by lra. rewrite rnd_0.
  replace (a + 0) with a by lra. exact Ha.
Qed.

Lemma lerp_at_1 (a b : R) : rnd b = b -> lerp a b 1 = b.
Proof.
  intros Hb. unfold lerp, fadd, fmul, fsub.
  replace (1 - 1) with 0 by lra. rewrite rnd_0.
  replace (a * 0) with 0 by lra. rewrite rnd_0.
  replace (b * 1) with b by lra. rewrite Hb.
  replace (0 + b) with b by lra. exact Hb.
Qed.

End MoreControllerFacts.



(** X6. After every [Update], from any state, the marker position
    [xpos] lies in [0, 640], the pan position is [lerp(-1, 1, xpos/640)],
    and this map from marker to pan is monotone, -1 at 0 and +1 at 640:
    of two games, the one whose marker is further right has the pan
    position further right. *)
Theorem Update_marker_and_pan {F : Float64}
  (g1 : Game) (w1 : World) (g1' : Game) (w1' : World)
  (g2 : Game) (w2 : World) (g2' : Game) (w2' : World) :
  Update g1 w1 = Returned (g1', w1') ->
  Update g2 w2 = Returned (g2', w2') ->
  (0 <= xpos g1' <= IZR screenWidth)%R /\
  panning g1' = lerp (-1) 1 (fdiv (xpos g1') (float64 screenWidth)) /\
  ((xpos g1' <= xpos g2')%R -> (panning g1' <= panning g2')%R) /\
  lerp (-1) 1 (fdiv 0 (float64 screenWidth)) = (-1)%R /\
  lerp (-1) 1 (fdiv (IZR screenWidth) (float64 screenWidth)) = 1%R.
Proof.
  intros H1 H2.
  apply Update_Returned in H1 as (_ & Hp1 & Hx1 & _).
  apply Update_Returned in H2 as (_ & Hp2 & Hx2 & _).
  assert (Hpan : forall g c, panning g = panningAt c -> xpos g = xposAt c ->
            panning g = lerp (-1) 1 (fdiv (xpos g) (float64 screenWidth))).
  { intros g c -> ->. reflexivity. }
  split; [rewrite Hx1; apply xposAt_range|].
  split; [eapply Hpan; eassumption|].
  split.
  - intros Hle. rewrite (Hpan _ _ Hp1 Hx1), (Hpan _ _ Hp2 Hx2).
    apply lerp_pan_mono. unfold fdiv. apply rnd_le.
    rewrite float64_screenWidth. lra.
  - unfold fdiv. rewrite float64_screenWidth. unfold screenWidth.
    replace (0 / 640)%R with 0%R by lra.
    replace (640 / 640)%R with 1%R by lra.
    rewrite rnd_0, rnd_1.
    split; [apply lerp_at_0, rnd_m1 | apply lerp_at_1, rnd_1].
Qed.

Lemma Update_marker_and_pan_witness :
  exists g1 w1 g2 w2,
    ticks (F := exact) 1 quiet = Returned (g1, w1) /\
    ticks (F := exact) 2 quiet = Returned (g2, w2) /\
    (0 <= xpos g2 <= 640)%R /\
    ((xpos g2 <= xpos g1)%R -> (panning g2 <= panning g1)%R).
Proof.
  destruct (ticks_returns (F := exact) 1 quiet quiet_sound) as (g1 & w1 & H1).
  destruct (ticks_returns (F := exact) 2 quiet quiet_sound) as (g2 & w2 & H2).
  exists g1, w1, g2, w2. split; [exact H1|]. split; [exact H2|].
  assert (HU1 : Update (F := exact) newGame quiet = Returned (g1, w1)) by exact H1.
  assert (HU2 : Update (F := exact) g1 w1 = Returned (g2, w2)).
  { cbn [ticks] in H2. change (ticks (F := exact) 1 quiet) with
      (Update (F := exact) newGame quiet) in H1.
    revert H2. change (Returned (newGame, quiet) ≫= _)
      with (Update (F := exact) newGame quiet). rewrite HU1. intros H2. exact H2. }
  destruct (Update_marker_and_pan (F := exact) g1 w1 g2 w2 newGame quiet g1 w1
              HU2 HU1) as (Hx & _ & Hmono & _).
  split; [exact Hx | exact Hmono].
Defined.

(** ** The controller: the gain law *)

Section GainFacts.
Context {F : Float64}.
Local Open Scope R_scope.

Lemma rightVolume_full (pan : R) : 0 <= pan -> rightVolume pan = 1.
Proof.
  intros Hp. unfold rightVolume, Min, fadd.
  assert (H1 : 1 <= rnd (pan + 1)).
  { rewrite <- rnd_1 at 1. apply rnd_le. lra. }
  unfold Rmin. destruct (Rle_dec _ _); lra.
Qed.

Lemma leftVolume_full (pan : R) : pan <= 0 -> leftVolume pan = 1.
Proof.
  intros Hp. unfold leftVolume, Min, fadd, fmul.
  assert (H0 : 0 <= rnd (pan * -1)).
  { rewrite <- rnd_0 at 1. apply rnd_le. lra. }
  assert (H1 : 1 <= rnd (rnd (pan * -1) + 1)).
  { rewrite <- rnd_1 at 1. apply rnd_le. lra. }
  unfold Rmin. destruct (Rle_dec _ _); lra.
Qed.

Lemma Rmin_mono_l (x y z : R) : x <= y -> Rmin x z <= Rmin y z.
Proof. intros Hxy. unfold Rmin. repeat destruct (Rle_dec _ _); lra. Qed.

Lemma rightVolume_mono (pan pan' : R) :
  pan <= pan' -> rightVolume pan <= rightVolume pan'.
Proof.
  intros Hp. unfold rightVolume, Min, fadd.
  apply Rmin_mono_l, rnd_le. lra.
Qed.

Lemma leftVolume_anti (pan pan' : R) :
  pan <= pan' -> leftVolume pan' <= leftVolume pan.
Proof.
  intros Hp. unfold leftVolume, Min, fadd, fmul.
  apply Rmin_mono_l, rnd_le.
  assert (rnd (pan' * -1) <= rnd (pan * -1)) by (apply rnd_le; lra).
  lra.
Qed.

Lemma volumes_mirror (pan : R) :
  rnd pan = pan ->
  leftVolume (- pan) = rightVolume pan /\ rightVolume (- pan) = leftVolume pan.
Proof.
  intros Hp. unfold leftVolume, rightVolume, Min, fadd, fmul.
  replace (- pan * -1) with pan by lra.
  replace (pan * -1) with (- pan) by lra.
  rewrite Hp, rnd_opp, Hp. split; reflexivity.
Qed.

End GainFacts.

(** X7. After every tick both volumes lie in [0, 1] and at least one of
    the two players is at full volume: the right one when the pan
    position is not negative, the left one when it is not positive. *)
Theorem one_player_at_full_volume {F : Float64}
  (k : nat) (w : World) (g : Game) (w' : World) :
  ticks (S k) w = Returned (g, w') ->
  exists pl pr,
    playerLeft g = Some pl /\ playerRight g = Some pr /\
    (0 <= volume pl <= 1)%R /\ (0 <= volume pr <= 1)%R /\
    ((0 <= panning g)%R -> volume pr = 1%R) /\
    ((panning g <= 0)%R -> volume pl = 1%R) /\
    (volume pl = 1%R \/ volume pr = 1%R).
Proof.
  intros Hk.
  pose proof (ticks_Returned _ _ _ _ Hk) as (_ & _ & Hpan & _).
  assert (Hvol : exists pl pr,
            playerLeft g = Some pl /\ playerRight g = Some pr /\
            volume pl = leftVolume (panning g) /\
            volume pr = rightVolume (panning g)).
  { cbn [ticks] in Hk.
    destruct (ticks k w) as [[g0 w0]| |]; cbn in Hk; try discriminate.
    apply Update_Returned in Hk
      as (_ & _ & _ & g1 & pl & pr & _ & _ & _ & Hl & Hr).
    eexists _, _. split; [exact Hl|]. split; [exact Hr|]. split; reflexivity. }
  destruct Hvol as (pl & pr & Hpl & Hpr & Hvl & Hvr).
  exists pl, pr. split; [exact Hpl|]. split; [exact Hpr|].
  rewrite Hvl, Hvr.
  pose proof (panningAt_range (count g)) as Hrange. rewrite <- Hpan in Hrange.
  split; [apply leftVolume_range; exact Hrange|].
  split; [apply rightVolume_range; exact Hrange|].
  split; [apply rightVolume_full|]. split; [apply leftVolume_full|].
  destruct (Rle_dec 0 (panning g)) as [Hp|Hp].
  - right. apply rightVolume_full. exact Hp.
  - left. apply leftVolume_full. lra.
Qed.

Lemma one_player_at_full_volume_witness :
  exists g w' pl pr,
    ticks (F := exact) 4 quiet = Returned (g, w') /\
    playerLeft g = Some pl /\ playerRight g = Some pr /\
    (volume pl = 1%R \/ volume pr = 1%R).
Proof.
  destruct (ticks_returns (F := exact) 4 quiet quiet_sound) as (g & w' & Hk).
  destruct (one_player_at_full_volume (F := exact) 3 quiet g w' Hk)
    as (pl & pr & Hpl & Hpr & _ & _ & _ & _ & Hone).
  exists g, w', pl, pr. auto.
Defined.

(** X8. The gain law is mirror symmetric: for a [float64] pan position,
    the left gain at [-pan] is the right gain at [pan], and the right
    gain at [-pan] is the left gain at [pan]. *)
Theorem gains_mirror {F : Float64} (pan : R) :
  rnd pan = pan ->
  leftVolume (- pan) = rightVolume pan /\ rightVolume (- pan) = leftVolume pan.
Proof. apply volumes_mirror. Qed.

Lemma gains_mirror_witness :
  leftVolume (F := exact) (- (1 / 2)) = rightVolume (F := exact) (1 / 2).
Proof. apply (gains_mirror (F := exact) (1 / 2)). reflexivity. Defined.

(** X9. The gain law is monotone: moving the pan position to the right
    never lowers the right gain and never raises the left gain. *)
Theorem gains_monotone {F : Float64} (pan pan' : R) :
  (pan <= pan')%R ->
  (rightVolume pan <= rightVolume pan')%R /\
  (leftVolume pan' <= leftVolume pan)%R.
Proof.
  intros Hp. split; [apply rightVolume_mono | apply leftVolume_anti]; exact Hp.
Qed.

Lemma gains_monotone_witness :
  (rightVolume (F := exact) (-1) <= rightVolume (F := exact) 0)%R /\
  (leftVolume (F := exact) 0 <= leftVolume (F := exact) (-1))%R.
Proof. apply (gains_monotone (F := exact) (-1) 0). lra. Defined.

(** ** The controller: failures of the audio library *)

Section FailureFacts.
Context {F : Float64}.

Lemma sound_or_fault (w : World) : sound w \/ true ∈ take 4 (faults w).
Proof.
  destruct (decide (true ∈ take 4 (faults w))) as [Hin|Hout]; [right; exact Hin|].
  left. intros [] Hb; [contradiction|reflexivity].
Qed.

Lemma fault_not_sound (w : World) : true ∈ take 4 (faults w) -> ~ sound w.
Proof. intros Hin Hs. specialize (Hs true Hin). discriminate. Qed.

Lemma initAudioIfNeeded_not_Panicked (g : Game) (w : World) :
  initAudioIfNeeded g w <> Panicked.
Proof.
  unfold initAudioIfNeeded.
  destruct (playerLeft g) as [pl|] eqn:Hpl; [discriminate|].
  unfold DecodeF32, NewPlayerF32, NewContext, attempt.
  destruct (audioContext g) as [c|] eqn:Hc;
    destruct (faults w) as [|[] [|[] [|[] [|[] fs]]]] eqn:Hf;
    cbn; discriminate.
Qed.

Lemma initAudioIfNeeded_Fatal (g : Game) (w : World) :
  playerLeft g = None -> true ∈ take 4 (faults w) ->
  initAudioIfNeeded g w = Fatal.
Proof.
  intros Hnil Hbad.
  destruct (initAudioIfNeeded g w) as [[g' w']| |] eqn:E.
  - apply initAudioIfNeeded_fresh in E; [|exact Hnil].
    exfalso. eapply fault_not_sound; [exact Hbad|].
    destruct E as (_ & _ & _ & _ & _ & _ & _ & _ & _ & _ & Hs). exact Hs.
  - exfalso. eapply initAudioIfNeeded_not_Panicked. exact E.
  - reflexivity.
Qed.

Lemma first_tick_Fatal (w : World) :
  true ∈ take 4 (faults w) -> Update newGame w = Fatal.
Proof.
  intros Hbad. unfold Update. fold (moved newGame).
  rewrite initAudioIfNeeded_Fatal; [reflexivity | reflexivity | exact Hbad].
Qed.

Lemma ticks_Fatal (k : nat) (w : World) :
  true ∈ take 4 (faults w) -> ticks (S k) w = Fatal.
Proof.
  intros Hbad. induction k as [|k IH].
  - cbn [ticks]. cbn [mbind outcome_bind]. apply first_tick_Fatal. exact Hbad.
  - change (ticks (S (S k)) w) with ('(g, w0) ← ticks (S k) w; Update g w0).
    rewrite IH. reflexivity.
Qed.

End FailureFacts.

(** X10. A run of ticks either goes on or ends the process, and never
    panics: it ends the process exactly when one of the four fallible
    calls of the first [initAudioIfNeeded] (two decodes, two players)
    fails, and otherwise returns having consumed exactly those four
    calls. *)
Theorem ticks_end_only_by_Fatal {F : Float64} (k : nat) (w : World) :
  (ticks (S k) w = Fatal <-> true ∈ take 4 (faults w)) /\
  ticks (S k) w <> Panicked /\
  (true ∉ take 4 (faults w) ->
   exists g w', ticks (S k) w = Returned (g, w') /\
     faults w' = drop 4 (faults w)).
Proof.
  assert (Hgood : sound w ->
            exists g w', ticks (S k) w = Returned (g, w') /\
              faults w' = drop 4 (faults w)).
  { intros Hs. destruct (ticks_returns (S k) w Hs) as (g & w' & Hk).
    exists g, w'. split; [exact Hk|].
    apply ticks_Returned in Hk. tauto. }
  split; [|split].
  - split; [|apply ticks_Fatal].
    intros Hf. destruct (sound_or_fault w) as [Hs|Hb]; [|exact Hb].
    destruct (Hgood Hs) as (g & w' & Hk & _). congruence.
  - destruct (sound_or_fault w) as [Hs|Hb].
    + destruct (Hgood Hs) as (g & w' & Hk & _). congruence.
    + rewrite ticks_Fatal by exact Hb. discriminate.
  - intros Hno. destruct (sound_or_fault w) as [Hs|Hb]; [|contradiction].
    apply Hgood. exact Hs.
Qed.

Lemma ticks_end_only_by_Fatal_witness :
  ticks (F := exact) 3
    {| contexts := 0; decodes := 0; handles := 0;
       faults := [false; false; true] |} = Fatal /\
  exists g w',
    ticks (F := exact) 3
      {| contexts := 0; decodes := 0; handles := 0;
         faults := [false; false; false; false; true] |} = Returned (g, w') /\
    faults w' = [true].
Proof.
  split.
  - apply (ticks_end_only_by_Fatal (F := exact) 2). cbn.
    rewrite !elem_of_cons. auto.
  - destruct (ticks_end_only_by_Fatal (F := exact) 2
                {| contexts := 0; decodes := 0; handles := 0;
                   faults := [false; false; false; false; true] |})
      as (_ & _ & Hgo).
    destruct Hgo as (g & w' & Hk & Hf).
    + cbn. rewrite !elem_of_cons, elem_of_nil. intuition discriminate.
    + exists g, w'. split; [exact Hk | exact Hf].
Defined.

(** ** The controller: the players are made once and kept *)

(** X11. The players made by the first tick are kept for good: after any
    number of ticks the left player still plays the first decode through
    a keep-left filter and the right player the second decode through a
    keep-right filter, two different sources; only the volumes change. *)
Theorem players_are_kept {F : Float64}
  (k : nat) (w : World) (g : Game) (w' : World) :
  ticks (S k) w = Returned (g, w') ->
  playerLeft g = Some (with_volume (leftPlayer w) (leftVolume (panning g))) /\
  playerRight g = Some (with_volume (rightPlayer w) (rightVolume (panning g))) /\
  src (stream (leftPlayer w)) <> src (stream (rightPlayer w)) /\
  isLeft (stream (leftPlayer w)) = true /\
  isLeft (stream (rightPlayer w)) = false /\
  playing (leftPlayer w) = true /\ playing (rightPlayer w) = true.
Proof.
  intros Hk.
  assert (Hkeep : playerLeft g
                  = Some (with_volume (leftPlayer w) (leftVolume (panning g))) /\
                  playerRight g
                  = Some (with_volume (rightPlayer w) (rightVolume (panning g)))).
  { revert g w' Hk. induction k as [|k IH]; intros g w' Hk.
    - cbn [ticks] in Hk. cbn [mbind outcome_bind] in Hk.
      apply Update_fresh in Hk; [|reflexivity]. tauto.
    - change (ticks (S (S k)) w)
        with ('(g, w0) ← ticks (S k) w; Update g w0) in Hk.
      destruct (ticks (S k) w) as [[g0 w0]| |] eqn:Hk0; cbn in Hk;
        try discriminate.
      destruct (IH g0 w0 eq_refl) as [Hl0 Hr0].
      pose proof (ticks_Returned _ _ _ _ Hk0) as (_ & Hready & _).
      apply Update_ready in Hk; [|exact Hready].
      destruct Hk as (_ & _ & (pl & Hpl & Hl) & (pr & Hpr & Hr)).
      rewrite Hl0 in Hpl. rewrite Hr0 in Hpr.
      injection Hpl as <-. injection Hpr as <-.
      split; [exact Hl | exact Hr]. }
  destruct Hkeep as [Hl Hr].
  split; [exact Hl|]. split; [exact Hr|].
  cbn. split_and!; try reflexivity. lia.
Qed.

Lemma players_are_kept_witness :
  exists g w' pl pr,
    ticks (F := exact) 7 quiet = Returned (g, w') /\
    playerLeft g = Some pl /\ playerRight g = Some pr /\
    src (stream pl) = 0%nat /\ src (stream pr) = 1%nat.
Proof.
  destruct (ticks_returns (F := exact) 7 quiet quiet_sound) as (g & w' & Hk).
  destruct (players_are_kept (F := exact) 6 quiet g w' Hk) as (Hl & Hr & _).
  eexists g, w', _, _.
  split; [exact Hk|]. split; [exact Hl|]. split; [exact Hr|].
  split; reflexivity.
Defined.

(** ** The controller: the shape of the sweep *)

(** X12. The pan position is the cosine of the phase [2 PI c / 600]:
    exactly so in exact arithmetic, and in [float64] arithmetic, for
    counters up to [2^31], to within the error of [math.Cos] and
    [2^-23]. *)
Theorem panning_is_cosine {F : Float64} {A : Float64Accuracy F} (c : Z) :
  panningAt (F := exact) c = cos (IZR c * (2 * PI / 600)) /\
  (Z.abs c <= 2 ^ 31 ->
   (Rabs (panningAt c - cos (IZR c * (2 * PI / 600)))
    <= cos_err + / 2 ^ 23)%R).
Proof.
  split; [apply exact_panningAt|].
  intros Hc. apply Rabs_le. apply panningAt_near. exact Hc.
Qed.

Lemma panning_is_cosine_witness :
  (Rabs (panningAt (F := exact) 150 - cos (150 * (2 * PI / 600)))
   <= / 2 ^ 23)%R.
Proof.
  destruct (panning_is_cosine (F := exact) 150) as [_ Hnear].
  eapply Rle_trans; [apply Hnear; vm_compute; discriminate|].
  cbn [cos_err exact_accuracy]. lra.
Defined.

(** X13. Half a period later the source is at the mirrored position and
    the two gains have changed places: exactly so in exact arithmetic,
    and in [float64] arithmetic, for every tick count [t], to within
    twice the error of [math.Cos], [2^-46] and [(|t| + 150) / 2^55]. *)
Theorem half_period_mirrors {F : Float64} {A : Float64Accuracy F} (t : Z) :
  (panningAt (F := exact) (t + 300) = (- panningAt (F := exact) t)%R /\
   leftVolume (F := exact) (panningAt (F := exact) (t + 300))
   = rightVolume (F := exact) (panningAt (F := exact) t) /\
   rightVolume (F := exact) (panningAt (F := exact) (t + 300))
   = leftVolume (F := exact) (panningAt (F := exact) t)) /\
  (Rabs (panningAt (t + 300) + panningAt t)
   <= 2 * cos_err + (Rabs (IZR t) + 150) / 2 ^ 55 + / 2 ^ 47)%R /\
  (Rabs (leftVolume (panningAt (t + 300)) - rightVolume (panningAt t))
   <= 2 * cos_err + (Rabs (IZR t) + 150) / 2 ^ 55 + / 2 ^ 46)%R /\
  (Rabs (rightVolume (panningAt (t + 300)) - leftVolume (panningAt t))
   <= 2 * cos_err + (Rabs (IZR t) + 150) / 2 ^ 55 + / 2 ^ 46)%R.
Proof.
  split.
  { assert (Hneg : panningAt (F := exact) (t + 300)
                   = (- panningAt (F := exact) t)%R).
    { rewrite !exact_panningAt, plus_IZR.
      replace ((IZR t + 300) * (2 * PI / 600))%R
        with (IZR t * (2 * PI / 600) + PI)%R by lra.
      apply neg_cos. }
    split; [exact Hneg|]. rewrite Hneg.
    apply (volumes_mirror (F := exact)). reflexivity. }
  pose proof (panningAt_drift_half_period t) as Hhalf.
  split; [exact Hhalf|].
  destruct (volumes_near_mirror (panningAt t) (panningAt (t + 300))
              (2 * cos_err + (Rabs (IZR t) + 150) / 2 ^ 55 + / 2 ^ 47))
    as [Hl Hr].
  - apply panningAt_range.
  - apply panningAt_range.
  - apply Rabs_le_inv. exact Hhalf.
  - split; (eapply Rle_trans; [eassumption|]); lra.
Qed.

Lemma half_period_mirrors_witness :
  (Rabs (panningAt (F := exact) 306 + panningAt (F := exact) 6)
   <= / 2 ^ 40)%R.
Proof.
  destruct (half_period_mirrors (F := exact) 6) as (_ & Hhalf & _).
  eapply Rle_trans; [exact Hhalf|].
  cbn [cos_err exact_accuracy].
  rewrite (Rabs_right 6) by lra. lra.
Defined.

(** ** Draw *)

(** X14. [Draw] panics on a game that has not been updated, its left
    player being nil.  After any number of ticks it returns: the marker is
    drawn at height 240 and horizontally within the screen's width less
    half the image's, the pan position shown is the game's and lies in
    [-1, 1], and the seconds shown are not negative when the player's
    position is not. *)
Theorem Draw_after_ticks {F : Float64}
  (k : nat) (w : World) (tps : R) (elapsed imageWidth : Z) :
  0 <= imageWidth <= 2 ^ 53 ->
  Draw newGame tps elapsed imageWidth = Panicked /\
  forall g w', ticks (S k) w = Returned (g, w') ->
    exists fr,
      Draw g tps elapsed imageWidth = Returned fr /\
      markerY fr = 240%R /\
      (- IZR (imageWidth / 2) <= markerX fr
       <= IZR screenWidth - IZR (imageWidth / 2))%R /\
      shownPanning fr = panning g /\
      (-1 <= shownPanning fr <= 1)%R /\
      (0 <= elapsed -> (0 <= shownSeconds fr)%R).
Proof.
  intros Hw. split; [reflexivity|].
  intros g w' Hk.
  pose proof (ticks_Returned _ _ _ _ Hk)
    as (_ & (pl & _ & Hpl & _) & Hpan & Hx & _).
  unfold Draw. rewrite Hpl. cbn [Position mbind outcome_bind].
  eexists. split; [reflexivity|]. cbn [markerY markerX shownPanning shownSeconds].
  assert (Hq : Z.quot imageWidth 2 = imageWidth / 2)
    by (apply Z.quot_div_nonneg; lia).
  assert (Hh : 0 <= imageWidth / 2 <= 2 ^ 53).
  { split; [apply Z.div_pos; lia|].
    apply Z.le_trans with imageWidth; [|lia].
    apply Z.div_le_upper_bound; lia. }
  split; [|split; [|split; [|split]]].
  - unfold float64, screenHeight. change (Z.quot 480 2) with 240%Z.
    apply rnd_IZR. vm_compute. discriminate.
  - rewrite Hq. unfold fsub, float64.
    rewrite (rnd_IZR (imageWidth / 2)) by lia.
    pose proof (xposAt_range (count g)) as Hr. rewrite <- Hx in Hr.
    rewrite <- opp_IZR, <- minus_IZR.
    apply rnd_between; [apply rnd_IZR | apply rnd_IZR| ].
    + lia.
    + unfold screenWidth. lia.
    + rewrite minus_IZR, opp_IZR. unfold screenWidth. lra.
  - reflexivity.
  - rewrite Hpan. apply panningAt_range.
  - intros He. unfold fdiv, float64, Second.
    rewrite (rnd_IZR 1000000000) by (vm_compute; discriminate).
    assert (H0 : (0 <= rnd (IZR elapsed))%R).
    { rewrite <- (rnd_IZR 0) by (vm_compute; discriminate).
      apply rnd_le, IZR_le. exact He. }
    rewrite <- (rnd_IZR 0) at 1 by (vm_compute; discriminate).
    apply rnd_le.
    apply Rmult_le_pos; [exact H0|].
    left. apply Rinv_0_lt_compat. lra.
Qed.

Lemma Draw_after_ticks_witness :
  exists g w' fr,
    ticks (F := exact) 2 quiet = Returned (g, w') /\
    Draw (F := exact) g 60 1000000000 100 = Returned fr /\
    markerY fr = 240%R /\ (-50 <= markerX fr <= 590)%R.
Proof.
  destruct (ticks_returns (F := exact) 2 quiet quiet_sound) as (g & w' & Hk).
  destruct (Draw_after_ticks (F := exact) 1 quiet 60 1000000000 100)
    as [_ Hdraw]; [vm_compute; split; discriminate|].
  destruct (Hdraw g w' Hk) as (fr & Hfr & Hy & Hx & _).
  exists g, w', fr. split; [exact Hk|]. split; [exact Hfr|].
  split; [exact Hy|].
  change (100 / 2)%Z with 50%Z in Hx. unfold screenWidth in Hx. lra.
Defined.
